(** * shiki-editor: Tab / Shift+Tab indentation of a textarea (src/tab.ts)

    A shallow embedding of [indent], [outdent] and their line utilities,
    together with the pieces of the JavaScript and DOM platform they call:
    [String.prototype.slice], [repeat], [replaceAll] with the pattern
    [/^[ \t]*/gm], [~~], [HTMLTextAreaElement.setRangeText] and
    [dispatchEvent].

    Strings are sequences of UTF-16 code units, offsets are natural numbers,
    and the numbers that the source computes with are exact integers (every
    value that occurs is far below 2^53, where doubles are exact).  [~~]
    keeps its reduction to 32 bits; it is the identity on the tab counts of
    any string shorter than 2^31 code units, which is every string an engine
    can hold. *)

From Stdlib Require Import String Ascii.
From Stdlib Require Import List ZArith NArith Arith Bool Lia.
Import ListNotations.

(* ================================================================== *)
(** * JavaScript strings and numbers *)
(* ================================================================== *)

Module JS.

(** A code unit, and a string as the list of its code units. *)
Abbreviation char := N (only parsing).
Abbreviation jsstring := (list N) (only parsing).

Definition LF : char := 10%N.      (* "\n" *)
Definition CR : char := 13%N.      (* "\r" *)
Definition TAB : char := 9%N.      (* "\t" *)
Definition SPACE : char := 32%N.   (* " " *)
Definition LS : char := 8232%N.    (* U+2028 LINE SEPARATOR *)
Definition PS : char := 8233%N.    (* U+2029 PARAGRAPH SEPARATOR *)

(** String literals of the examples: one code unit per ASCII character. *)
Definition js (s : String.string) : jsstring :=
  map (fun a => N.of_nat (nat_of_ascii a)) (list_ascii_of_string s).

(** [s[i] === c]; an index outside the string reads [undefined], which is
    equal to no character. *)
Definition char_is (s : jsstring) (i : nat) (c : char) : bool :=
  match nth_error s i with
  | Some x => N.eqb x c
  | None => false
  end.

(** [s.slice(a, b)] for non-negative [a] and [b]: both are clamped to the
    length and an empty string results when [b <= a]. *)
Definition slice (s : jsstring) (a b : nat) : jsstring :=
  firstn (b - a) (skipn a s).

(** The exceptions the modelled calls can raise. *)
Inductive exn := RangeError | IndexSizeError.

Inductive result (A : Type) : Type :=
| Ok (a : A)
| Throw (e : exn).
Arguments Ok {A} a.
Arguments Throw {A} e.

Definition bind {A B} (m : result A) (k : A -> result B) : result B :=
  match m with
  | Ok a => k a
  | Throw e => Throw e
  end.

Notation "x <- c1 ;; c2" := (bind c1 (fun x => c2))
  (at level 61, c1 at next level, right associativity).

(** [ToInt32]: reduction modulo 2^32 into [-2^31, 2^31). *)
Definition to_int32 (z : Z) : Z :=
  let m := (z mod 2 ^ 32)%Z in
  if (m <? 2 ^ 31)%Z then m else (m - 2 ^ 32)%Z.

(** [~~(a / b)] on integers [a], [b]: the quotient truncated towards zero,
    then [ToInt32].  For [b = 0] the quotient is [NaN] or an infinity and
    [~~] gives 0, which is also the value of [Z.quot a 0]. *)
Definition trunc_div (a b : Z) : Z := to_int32 (Z.quot a b).

(** [c.repeat(count)] for a one-character string [c]; a negative count
    raises [RangeError]. *)
Definition js_repeat (c : char) (count : Z) : result jsstring :=
  if (count <? 0)%Z then Throw RangeError
  else Ok (repeat c (Z.to_nat count)).

(** ** The pattern [/^[ \t]*/gm]

    With the [m] flag, [^] holds at index 0 and after every LineTerminator
    (LF, CR, U+2028, U+2029); [[ \t]*] is greedy. *)

Definition is_line_terminator (c : char) : bool :=
  N.eqb c LF || N.eqb c CR || N.eqb c LS || N.eqb c PS.

Definition is_blank (c : char) : bool :=
  N.eqb c SPACE || N.eqb c TAB.

Fixpoint take_while (p : char -> bool) (s : jsstring) : jsstring :=
  match s with
  | [] => []
  | c :: s' => if p c then c :: take_while p s' else []
  end.

Fixpoint drop_while (p : char -> bool) (s : jsstring) : jsstring :=
  match s with
  | [] => []
  | c :: s' => if p c then drop_while p s' else s
  end.

Definition at_line_start (str : jsstring) (i : nat) : bool :=
  match i with
  | 0 => true
  | S j => match nth_error str j with
           | Some c => is_line_terminator c
           | None => false
           end
  end.

(** The matcher tried at index [i]: the end index of the match, if any. *)
Definition match_at (str : jsstring) (i : nat) : option nat :=
  if at_line_start str i
  then Some (i + length (take_while is_blank (skipn i str)))
  else None.

(** [RegExpBuiltinExec]: the first match at an index [>= lastIndex] and
    [<= length]; [fuel] bounds the indices tried. *)
Fixpoint regexp_exec (fuel : nat) (str : jsstring) (lastIndex : nat)
  : option (nat * nat) :=
  match fuel with
  | 0 => None
  | S fuel' =>
      if length str <? lastIndex then None
      else match match_at str lastIndex with
           | Some e => Some (lastIndex, e)
           | None => regexp_exec fuel' str (S lastIndex)
           end
  end.

(** The loop of [RegExp.prototype[Symbol.replace]] for a global pattern:
    collect the matches, stepping over an empty match by one code unit. *)
Fixpoint regexp_matches (fuel : nat) (str : jsstring) (lastIndex : nat)
  : list (nat * nat) :=
  match fuel with
  | 0 => []
  | S fuel' =>
      match regexp_exec (S (length str)) str lastIndex with
      | None => []
      | Some (i, e) =>
          (i, e) :: regexp_matches fuel' str (if e =? i then S e else e)
      end
  end.

(** A replacer function is called with the matched text, its offset and the
    whole subject string. *)
Definition replacer := jsstring -> nat -> jsstring -> result jsstring.

(** The second half of [Symbol.replace]: the replacer is called on every
    match; a match at or behind [nextSourcePosition] adds the text before it
    and its replacement, and the text behind the last match is copied. *)
Fixpoint replace_build (f : replacer) (str : jsstring)
  (ms : list (nat * nat)) (nextSourcePosition : nat) : result jsstring :=
  match ms with
  | [] => Ok (skipn nextSourcePosition str)
  | (i, e) :: ms' =>
      r <- f (slice str i e) i str ;;
      if nextSourcePosition <=? i then
        rest <- replace_build f str ms' e ;;
        Ok (slice str nextSourcePosition i ++ r ++ rest)
      else replace_build f str ms' nextSourcePosition
  end.

(** [str.replaceAll(/^[ \t]*/gm, f)]. *)
Definition replaceAll_leading (f : replacer) (str : jsstring) : result jsstring :=
  replace_build f str (regexp_matches (S (length str)) str 0) 0.

(** ** The same replacement read in one pass

    [replace_scan] walks the subject once.  Its state is the match under
    way, if any: the offset where it started and the blanks taken so far.
    [replaceAll_leading_scan] below shows that it computes what the
    match-collecting loop above computes. *)
Fixpoint replace_scan (f : replacer) (str s : jsstring) (index : nat)
  (m : option (nat * jsstring)) : result jsstring :=
  match s with
  | [] =>
      match m with
      | Some (p, leading) => f leading p str
      | None => Ok []
      end
  | c :: s' =>
      let next := if is_line_terminator c then Some (S index, []) else None in
      match m with
      | Some (p, leading) =>
          if is_blank c
          then replace_scan f str s' (S index) (Some (p, leading ++ [c]))
          else
            r <- f leading p str ;;
            rest <- replace_scan f str s' (S index) next ;;
            Ok (r ++ c :: rest)
      | None =>
          rest <- replace_scan f str s' (S index) next ;;
          Ok (c :: rest)
      end
  end.

(** ** Lines, as the pattern sees them

    [js_lines] cuts a string after every LineTerminator; each line but the
    last keeps its terminator, so that [concat (js_lines s) = s]. *)
Fixpoint js_lines (s : jsstring) : list jsstring :=
  match s with
  | [] => [[]]
  | c :: s' =>
      if is_line_terminator c then [c] :: js_lines s'
      else match js_lines s' with
           | l :: ls => (c :: l) :: ls
           | [] => [[c]]
           end
  end.

(** The leading run of spaces and tabs of a line, and what follows it. *)
Definition leading_run (line : jsstring) : jsstring := take_while is_blank line.
Definition after_leading (line : jsstring) : jsstring := drop_while is_blank line.

(** The replacement, line by line: the replacer is called on the leading run
    of each line, at the line's offset. *)
Fixpoint rewrite_lines (f : replacer) (str : jsstring) (offset : nat)
  (lines : list jsstring) : result jsstring :=
  match lines with
  | [] => Ok []
  | l :: ls =>
      r <- f (leading_run l) offset str ;;
      rest <- rewrite_lines f str (offset + length l) ls ;;
      Ok (r ++ after_leading l ++ rest)
  end.

(** What [js_lines] returns: every line but the last is a terminator-free
    text followed by one terminator, the last line is terminator-free. *)
Definition no_terminator (l : jsstring) : Prop :=
  forallb (fun c => negb (is_line_terminator c)) l = true.

Inductive lines_ok : list jsstring -> Prop :=
| lines_last l : no_terminator l -> lines_ok [l]
| lines_cons x t ls :
    no_terminator x -> is_line_terminator t = true -> lines_ok ls ->
    lines_ok ((x ++ [t]) :: ls).

(** A line without content: nothing, or only its terminator. *)
Definition empty_line (l : jsstring) : bool :=
  match l with
  | [] => true
  | c :: _ => is_line_terminator c
  end.

End JS.

(* ================================================================== *)
(** * The textarea *)
(* ================================================================== *)

Module Dom.
Import JS.

(** The fourth argument of [setRangeText]. *)
Inductive SelectionMode := Select | Start | End_ | Preserve.

(** What a call leaves behind that an observer can see: each range rewrite
    and each dispatched ["input"] event, in order. *)
Inductive effect :=
| RangeRewrite (replacement : jsstring) (start end_ : nat) (mode : SelectionMode)
| InputEvent.

Record HTMLTextAreaElement := mkTextArea {
  value : jsstring;
  selectionStart : nat;
  selectionEnd : nat;
  effects : list effect
}.

(** A selection the control can hold: [0 <= start <= end <= length]. *)
Definition selection_ok (input : HTMLTextAreaElement) : Prop :=
  selectionStart input <= selectionEnd input /\
  selectionEnd input <= length (value input).

(** [input.setRangeText(replacement, start, end, selectMode)] as the HTML
    Standard defines it. *)
Definition setRangeText (replacement : jsstring) (start end_ : nat)
  (mode : SelectionMode) (input : HTMLTextAreaElement)
  : result HTMLTextAreaElement :=
  if end_ <? start then Throw IndexSizeError
  else
    let len := length (value input) in
    let start' := Nat.min start len in
    let end' := Nat.min end_ len in
    let new_value := firstn start' (value input) ++ replacement
                     ++ skipn end' (value input) in
    let new_length := length replacement in
    let new_end := start' + new_length in
    let old_length := end' - start' in
    let adjust (sel to : nat) :=
      if end' <? sel then sel + new_length - old_length
      else if start' <? sel then to
      else sel in
    let '(sel_start, sel_end) :=
      match mode with
      | Select => (start', new_end)
      | Start => (start', start')
      | End_ => (new_end, new_end)
      | Preserve => (adjust (selectionStart input) start',
                     adjust (selectionEnd input) new_end)
      end in
    let sel_end' := Nat.min sel_end (length new_value) in
    let sel_start' := Nat.min sel_start sel_end' in
    Ok {| value := new_value;
          selectionStart := sel_start';
          selectionEnd := sel_end';
          effects := effects input ++ [RangeRewrite replacement start end_ mode] |}.

(** [input.dispatchEvent(new Event("input"))]: the listeners of the editor
    only read the control. *)
Definition dispatchInputEvent (input : HTMLTextAreaElement) : HTMLTextAreaElement :=
  {| value := value input;
     selectionStart := selectionStart input;
     selectionEnd := selectionEnd input;
     effects := effects input ++ [InputEvent] |}.

End Dom.

(* ================================================================== *)
(** * src/tab.ts *)
(* ================================================================== *)

Module Tab.
Import JS Dom.

(** [tabSize] is a number of columns, 4 unless the editor is told
    otherwise.  It is a natural number here, as the tab width of the
    specification is: a negative or fractional size, which the type [number]
    of the source would admit, is outside this development. *)
Record IndentConfig := mkConfig {
  tabSize : nat;
  insertSpaces : bool
}.

(** [while (index > 0 && value[index - 1] !== "\n") index--]. *)
Fixpoint getLineStart (value : jsstring) (index : nat) : nat :=
  match index with
  | 0 => 0
  | S i => if char_is value i LF then index else getLineStart value i
  end.

(** The forward loop of [getLineEnd] over the unread rest of the string. *)
Fixpoint scanLineEnd (rest : jsstring) (index : nat) : nat :=
  match rest with
  | [] => index
  | c :: rest' =>
      if N.eqb c LF || N.eqb c CR then index
      else scanLineEnd rest' (S index)
  end.

Definition getLineEnd (value : jsstring) (index : nat) : nat :=
  if (0 <? index) && char_is value (index - 1) LF then index - 1
  else scanLineEnd (skipn index value) index.

(** [for (let i = start; i < end; i++) if (value[i] === "\n") return true]
    with [n] iterations left. *)
Fixpoint isMultiLineFrom (value : jsstring) (i n : nat) : bool :=
  match n with
  | 0 => false
  | S n' => if char_is value i LF then true
            else isMultiLineFrom value (S i) n'
  end.

Definition isMultiLine (value : jsstring) (start end_ : nat) : bool :=
  isMultiLineFrom value start (end_ - start).

(** The loop of [countLeadingSpaces] over the rest of the string. *)
Fixpoint countBlanks (rest : jsstring) (tabSize : nat) : nat :=
  match rest with
  | [] => 0
  | c :: rest' =>
      if N.eqb c SPACE then 1 + countBlanks rest' tabSize
      else if N.eqb c TAB then tabSize + countBlanks rest' tabSize
      else 0
  end.

Definition countLeadingSpaces (value : jsstring) (start tabSize : nat) : nat :=
  countBlanks (skipn start value) tabSize.

(** The replacer of [indent]'s block mode. *)
Definition indentReplacer (config : IndentConfig) (line_end : nat) : replacer :=
  fun leading offset str =>
    if char_is str offset LF || char_is str offset CR || (offset =? line_end)
    then Ok leading
    else
      let tab_count :=
        (1 + trunc_div (Z.of_nat (countLeadingSpaces leading 0 (tabSize config)))
                       (Z.of_nat (tabSize config)))%Z in
      if insertSpaces config
      then js_repeat SPACE (tab_count * Z.of_nat (tabSize config))
      else js_repeat TAB tab_count.

(** [tabSize - ((start - line_start) % tabSize)]; for [tabSize = 0] the
    remainder is [NaN], and [" ".repeat(NaN)] is the empty string. *)
Definition caretPadding (tabSize start line_start : nat) : Z :=
  if tabSize =? 0 then 0%Z
  else (Z.of_nat tabSize - Z.of_nat ((start - line_start) mod tabSize))%Z.

Definition indent (input : HTMLTextAreaElement) (config : IndentConfig)
  : result HTMLTextAreaElement :=
  let start := selectionStart input in
  let end_ := selectionEnd input in
  let value := value input in
  let value_length := length value in
  let line_start := getLineStart value start in
  let line_end := getLineEnd value end_ in
  let start_at_line_start := (start =? 0) || char_is value (start - 1) LF in
  let end_at_line_end :=
    (end_ =? value_length) || char_is value end_ LF || char_is value end_ CR in
  let select_both_ends :=
    negb (start =? end_) && start_at_line_start && end_at_line_end in
  if select_both_ends || isMultiLine value start end_ then
    replacement <- replaceAll_leading (indentReplacer config line_end)
                     (slice value line_start line_end) ;;
    input' <- setRangeText replacement line_start line_end Preserve input ;;
    Ok (dispatchInputEvent input')
  else
    replacement <- (if insertSpaces config
                    then js_repeat SPACE (caretPadding (tabSize config) start line_start)
                    else Ok [TAB]) ;;
    input' <- setRangeText replacement start end_ End_ input ;;
    Ok (dispatchInputEvent input').

(** The test of [indent]'s [if] and its two branches, by name. *)
Definition indentBlockMode (input : HTMLTextAreaElement) : bool :=
  let start := selectionStart input in
  let end_ := selectionEnd input in
  let value := value input in
  let start_at_line_start := (start =? 0) || char_is value (start - 1) LF in
  let end_at_line_end :=
    (end_ =? length value) || char_is value end_ LF || char_is value end_ CR in
  let select_both_ends :=
    negb (start =? end_) && start_at_line_start && end_at_line_end in
  select_both_ends || isMultiLine value start end_.

Definition indentBlock (input : HTMLTextAreaElement) (config : IndentConfig)
  : result HTMLTextAreaElement :=
  let line_start := getLineStart (value input) (selectionStart input) in
  let line_end := getLineEnd (value input) (selectionEnd input) in
  replacement <- replaceAll_leading (indentReplacer config line_end)
                   (slice (value input) line_start line_end) ;;
  input' <- setRangeText replacement line_start line_end Preserve input ;;
  Ok (dispatchInputEvent input').

Definition indentCaret (input : HTMLTextAreaElement) (config : IndentConfig)
  : result HTMLTextAreaElement :=
  let start := selectionStart input in
  let line_start := getLineStart (value input) start in
  replacement <- (if insertSpaces config
                  then js_repeat SPACE (caretPadding (tabSize config) start line_start)
                  else Ok [TAB]) ;;
  input' <- setRangeText replacement start (selectionEnd input) End_ input ;;
  Ok (dispatchInputEvent input').

(** The replacer of [outdent]. *)
Definition outdentReplacer (config : IndentConfig) : replacer :=
  fun leading _ _ =>
    let tab_count :=
      trunc_div (Z.of_nat (countLeadingSpaces leading 0 (tabSize config))
                 - Z.of_nat (tabSize config))
                (Z.of_nat (tabSize config)) in
    if (tab_count <=? 0)%Z then Ok []
    else if insertSpaces config
         then js_repeat SPACE (tab_count * Z.of_nat (tabSize config))
         else js_repeat TAB tab_count.

Definition jsstring_eqb (a b : jsstring) : bool :=
  if list_eq_dec N.eq_dec a b then true else false.

Definition outdent (input : HTMLTextAreaElement) (config : IndentConfig)
  : result HTMLTextAreaElement :=
  let start := selectionStart input in
  let end_ := selectionEnd input in
  let value := value input in
  let line_start := getLineStart value start in
  let line_end := getLineEnd value end_ in
  let value_slice := slice value line_start line_end in
  replacement <- replaceAll_leading (outdentReplacer config) value_slice ;;
  if jsstring_eqb replacement value_slice then Ok input
  else
    input' <- setRangeText replacement line_start line_end Preserve input ;;
    Ok (dispatchInputEvent input').

End Tab.

(* ================================================================== *)
(** * Concrete controls used below *)
(* ================================================================== *)

Module Examples.
Import JS Dom Tab.

Definition spaces4 : IndentConfig := mkConfig 4 true.
Definition tabs4 : IndentConfig := mkConfig 4 false.

(** ["abc"] with the caret at its end. *)
Definition abc_caret_end : HTMLTextAreaElement := mkTextArea (js "abc") 3 3 [].

(** ["a\nb"] fully selected. *)
Definition a_b_selected : HTMLTextAreaElement :=
  mkTextArea (js "a" ++ [LF] ++ js "b") 0 3 [].

(** Seven spaces and ["x"], caret at the start. *)
Definition seven_spaces_x : HTMLTextAreaElement :=
  mkTextArea (js "       x") 0 0 [].

(** Four spaces and ["x"], caret at the end of the line. *)
Definition indented_x_caret_end : HTMLTextAreaElement :=
  mkTextArea (js "    x") 5 5 [].

(** Four spaces and ["x"], caret at the start of the line. *)
Definition indented_x_caret_start : HTMLTextAreaElement :=
  mkTextArea (js "    x") 0 0 [].

(** ["a\nbc"] with ["\nb"] selected: the selection starts on the newline. *)
Definition newline_first_selected : HTMLTextAreaElement :=
  mkTextArea (js "a" ++ [LF] ++ js "bc") 1 3 [].

(** ["a\n    b"] with the caret at the start of the second line. *)
Definition caret_at_second_line : HTMLTextAreaElement :=
  mkTextArea (js "a" ++ [LF] ++ js "    b") 2 2 [].

(** ["ab"] with the caret between the letters. *)
Definition ab_caret_middle : HTMLTextAreaElement := mkTextArea (js "ab") 1 1 [].

(** ["x"] and ["y"] on two unindented lines, both selected. *)
Definition x_y_unindented : HTMLTextAreaElement :=
  mkTextArea (js "x" ++ [LF] ++ js "y") 0 3 [].

(** ["a"], U+2028, two spaces and ["b"], caret at the start. *)
Definition line_separator_indented : HTMLTextAreaElement :=
  mkTextArea (js "a" ++ [LS] ++ js "  b") 0 0 [].

End Examples.

(* ================================================================== *)
(** * Lines, in the words of the specification *)
(* ================================================================== *)

Module SpecLines.
Import JS.

(** The specification's line: a maximal substring between two newline
    boundaries (or the start or end of the text).  This definition follows
    the specification, not the source; the source's lines are
    [JS.js_lines], the lines of the pattern [/^[ \t]*/gm]. *)
Fixpoint spec_lines (s : jsstring) : list jsstring :=
  match s with
  | [] => [[]]
  | c :: s' =>
      if N.eqb c LF then [] :: spec_lines s'
      else match spec_lines s' with
           | l :: ls => (c :: l) :: ls
           | [] => [[c]]
           end
  end.

End SpecLines.

(* ================================================================== *)
(** * src/tab.ts: the keydown hooks *)
(* ================================================================== *)

Module Hooks.
Import JS Dom Tab.

(** The part of a [KeyboardEvent] that the listeners read and set. *)
Record KeyboardEvent := mkKeyboardEvent {
  key : jsstring;
  shiftKey : bool;
  defaultPrevented : bool
}.

Definition preventDefault (e : KeyboardEvent) : KeyboardEvent :=
  {| key := key e; shiftKey := shiftKey e; defaultPrevented := true |}.

(** A listener is called with the event and its target, the textarea.  It
    returns the event and either the textarea it leaves or the exception it
    raised; [indent] and [outdent] raise before they change the control. *)
Definition listener : Type :=
  KeyboardEvent -> HTMLTextAreaElement ->
  KeyboardEvent * result HTMLTextAreaElement.

(** [onKeydown] of [hookIndent]. *)
Definition indentOnKeydown (config : IndentConfig) : listener :=
  fun e target =>
    if negb (jsstring_eqb (key e) (js "Tab")) || shiftKey e then (e, Ok target)
    else (preventDefault e, indent target config).

(** [onKeydown] of [hookOutdent]. *)
Definition outdentOnKeydown (config : IndentConfig) : listener :=
  fun e target =>
    if negb (jsstring_eqb (key e) (js "Tab")) || negb (shiftKey e)
    then (e, Ok target)
    else (preventDefault e, outdent target config).

(** The textarea as an event target: its keydown listeners in the order of
    their registration.  A listener is a function object and is known by its
    identity; [nextListener] is the identity of the next closure created. *)
Record Input := mkInput {
  control : HTMLTextAreaElement;
  keydown : list (nat * listener);
  nextListener : nat
}.

(** [input.addEventListener("keydown", f)]: a function already registered is
    not registered twice. *)
Definition addEventListener (f : nat) (run : listener) (input : Input) : Input :=
  if existsb (fun r => fst r =? f) (keydown input) then input
  else {| control := control input;
          keydown := keydown input ++ [(f, run)];
          nextListener := nextListener input |}.

(** [input.removeEventListener("keydown", f)]. *)
Definition removeEventListener (f : nat) (input : Input) : Input :=
  {| control := control input;
     keydown := filter (fun r => negb (fst r =? f)) (keydown input);
     nextListener := nextListener input |}.

(** [hookIndent] creates its listener, registers it and returns the function
    that removes it. *)
Definition hookIndent (input : Input) (config : IndentConfig)
  : Input * (Input -> Input) :=
  let onKeydown := nextListener input in
  (addEventListener onKeydown (indentOnKeydown config)
     {| control := control input;
        keydown := keydown input;
        nextListener := S onKeydown |},
   removeEventListener onKeydown).

Definition hookOutdent (input : Input) (config : IndentConfig)
  : Input * (Input -> Input) :=
  let onKeydown := nextListener input in
  (addEventListener onKeydown (outdentOnKeydown config)
     {| control := control input;
        keydown := keydown input;
        nextListener := S onKeydown |},
   removeEventListener onKeydown).

(** The listeners of a dispatched event run in order; an exception of one is
    reported and the next one runs. *)
Fixpoint runListeners (ls : list (nat * listener)) (e : KeyboardEvent)
  (target : HTMLTextAreaElement) : KeyboardEvent * HTMLTextAreaElement :=
  match ls with
  | [] => (e, target)
  | (_, run) :: ls' =>
      match run e target with
      | (e', Ok target') => runListeners ls' e' target'
      | (e', Throw _) => runListeners ls' e' target
      end
  end.

(** A keydown event dispatched at the textarea. *)
Definition dispatchKeydown (e : KeyboardEvent) (input : Input)
  : KeyboardEvent * Input :=
  let '(e', target) := runListeners (keydown input) e (control input) in
  (e', {| control := target;
          keydown := keydown input;
          nextListener := nextListener input |}).

End Hooks.

Module Scenarios.
Import JS Dom Tab Hooks.

(** ["x\na\n\n"] with ["a\n\n"] selected: the range is the line ["a"] and the
    empty line behind it. *)
Definition trailing_empty_line : HTMLTextAreaElement :=
  mkTextArea (js "x" ++ [LF] ++ js "a" ++ [LF; LF]) 2 5 [].

(** ["a\n\n"] fully selected. *)
Definition trailing_empty_line_at_top : HTMLTextAreaElement :=
  mkTextArea (js "a" ++ [LF; LF]) 0 3 [].

(** A tab, two spaces and ["x"], and an empty line, all selected. *)
Definition mixed_leading : HTMLTextAreaElement :=
  mkTextArea ([TAB] ++ js "  x" ++ [LF; LF] ++ js "y") 0 7 [].

(** Nine spaces and ["foo"], caret inside ["foo"]. *)
Definition nine_spaces_foo : HTMLTextAreaElement :=
  mkTextArea (js "         foo") 10 10 [].

(** A textarea without listeners. *)
Definition bare_input : Input := mkInput (mkTextArea (js "a") 1 1 []) [] 0.

Definition tab_key : KeyboardEvent := mkKeyboardEvent (js "Tab") false false.

(** ["    a\n    b"] fully selected. *)
Definition indented_a_b : HTMLTextAreaElement :=
  mkTextArea (js "    a" ++ [LF] ++ js "    b") 0 11 [].

End Scenarios.

Import JS Dom Tab Examples SpecLines.

(* ================================================================== *)
(** * The replacement, in one pass and line by line *)
(* ================================================================== *)

Section ReplaceScan.

Variable f : replacer.
Variable str : jsstring.

Lemma bind_Ok_r (A : Type) (m : result A) : (x <- m ;; Ok x) = m.
Proof. destruct m; reflexivity. Qed.

Lemma regexp_exec_beyond fuel i :
  length str < i -> regexp_exec fuel str i = None.
Proof.
  intros H. destruct fuel; simpl; [reflexivity|].
  apply Nat.ltb_lt in H. rewrite H. reflexivity.
Qed.

Lemma regexp_exec_fuel fuel : forall fuel' i,
  length str < i + fuel -> length str < i + fuel' ->
  regexp_exec fuel str i = regexp_exec fuel' str i.
Proof.
  induction fuel as [|k IH]; intros k' i Hk Hk'.
  - rewrite (regexp_exec_beyond 0), (regexp_exec_beyond k') by lia. reflexivity.
  - destruct k' as [|k'].
    + now rewrite (regexp_exec_beyond (S k)) by lia.
    + simpl. destruct (length str <? i); [reflexivity|].
      destruct (match_at str i); [reflexivity|].
      apply IH; lia.
Qed.

Lemma regexp_exec_here i :
  at_line_start str i = true -> i <= length str ->
  regexp_exec (S (length str)) str i
  = Some (i, i + length (take_while is_blank (skipn i str))).
Proof.
  intros Hb Hi. simpl.
  destruct (Nat.ltb_spec (length str) i); [lia|].
  unfold match_at. rewrite Hb. reflexivity.
Qed.

Lemma regexp_exec_skip i :
  at_line_start str i = false -> i <= length str ->
  regexp_exec (S (length str)) str i = regexp_exec (S (length str)) str (S i).
Proof.
  intros Hb Hi. transitivity (regexp_exec (length str) str (S i)).
  - cbn [regexp_exec].
    destruct (Nat.ltb_spec (length str) i); [lia|].
    unfold match_at. rewrite Hb. reflexivity.
  - apply regexp_exec_fuel; lia.
Qed.

Lemma regexp_matches_skip fuel i :
  at_line_start str i = false -> i <= length str ->
  regexp_matches fuel str i = regexp_matches fuel str (S i).
Proof.
  intros Hb Hi. destruct fuel; [reflexivity|].
  cbn [regexp_matches]. rewrite regexp_exec_skip by assumption. reflexivity.
Qed.

End ReplaceScan.

(** Small facts about lists of code units. *)

Lemma skipn_length_app (A : Type) (pre s : list A) :
  skipn (length pre) (pre ++ s) = s.
Proof. induction pre; simpl; auto. Qed.

Lemma firstn_length_app (A : Type) (pre s : list A) :
  firstn (length pre) (pre ++ s) = pre.
Proof. induction pre; simpl; congruence. Qed.

Lemma nth_error_length_app (A : Type) (pre s : list A) (c : A) :
  nth_error (pre ++ c :: s) (length pre) = Some c.
Proof. induction pre; simpl; auto. Qed.

Lemma blank_not_terminator c :
  is_blank c = true -> is_line_terminator c = false.
Proof.
  unfold is_blank, is_line_terminator, SPACE, TAB, LF, CR, LS, PS.
  intros H. apply orb_true_iff in H.
  destruct H as [H|H]; apply N.eqb_eq in H; subst c; reflexivity.
Qed.

Lemma take_while_all_blank leading s :
  forallb is_blank leading = true ->
  match s with [] => True | c :: _ => is_blank c = false end ->
  take_while is_blank (leading ++ s) = leading.
Proof.
  intros Hl Hs. induction leading as [|b l IH]; simpl in *.
  - destruct s; simpl; [reflexivity|]. now rewrite Hs.
  - apply andb_true_iff in Hl. destruct Hl as [Hb Hl].
    rewrite Hb, IH by assumption. reflexivity.
Qed.

Lemma drop_while_all_blank leading s :
  forallb is_blank leading = true ->
  match s with [] => True | c :: _ => is_blank c = false end ->
  drop_while is_blank (leading ++ s) = s.
Proof.
  intros Hl Hs. induction leading as [|b l IH]; simpl in *.
  - destruct s; simpl; [reflexivity|]. now rewrite Hs.
  - apply andb_true_iff in Hl. destruct Hl as [Hb Hl].
    rewrite Hb, IH by assumption. reflexivity.
Qed.

Lemma take_drop_while p s : take_while p s ++ drop_while p s = s.
Proof.
  induction s as [|c s IH]; simpl; [reflexivity|].
  destruct (p c); simpl; congruence.
Qed.

Lemma take_while_forallb p s : forallb p (take_while p s) = true.
Proof.
  induction s as [|c s IH]; simpl; [reflexivity|].
  destruct (p c) eqn:E; simpl; [now rewrite E|reflexivity].
Qed.

Lemma drop_while_head p s :
  match drop_while p s with [] => True | c :: _ => p c = false end.
Proof.
  induction s as [|c s IH]; simpl; [exact I|].
  destruct (p c) eqn:E; [exact IH|exact E].
Qed.

Lemma forallb_blank_snoc l c :
  forallb is_blank l = true -> is_blank c = true ->
  forallb is_blank (l ++ [c]) = true.
Proof.
  intros Hl Hc. rewrite forallb_app, Hl. simpl. now rewrite Hc.
Qed.

Lemma at_line_start_after pre c s :
  at_line_start (pre ++ c :: s) (S (length pre)) = is_line_terminator c.
Proof. simpl. now rewrite nth_error_length_app. Qed.

Lemma at_line_start_after_blanks pre0 leading s :
  forallb is_blank leading = true -> leading <> [] ->
  at_line_start (pre0 ++ leading ++ s) (length pre0 + length leading) = false.
Proof.
  intros Hl Hne.
  destruct (exists_last Hne) as [l' [b ->]].
  rewrite forallb_app in Hl. apply andb_true_iff in Hl.
  destruct Hl as [_ Hb]. simpl in Hb. rewrite andb_true_r in Hb.
  replace (length pre0 + length (l' ++ [b])) with (S (length (pre0 ++ l'))).
  2:{ rewrite !length_app. simpl. lia. }
  replace (pre0 ++ (l' ++ [b]) ++ s) with ((pre0 ++ l') ++ b :: s).
  2:{ rewrite <- !app_assoc. reflexivity. }
  rewrite at_line_start_after. now apply blank_not_terminator.
Qed.

Lemma slice_full s a : slice s a (length s) = skipn a s.
Proof.
  unfold slice. apply firstn_all2. rewrite length_skipn. lia.
Qed.

Lemma slice_app_mid pre0 leading s :
  slice (pre0 ++ leading ++ s) (length pre0) (length pre0 + length leading)
  = leading.
Proof.
  unfold slice. rewrite skipn_length_app.
  replace (length pre0 + length leading - length pre0) with (length leading) by lia.
  apply firstn_length_app.
Qed.

Lemma slice_snoc pre c s nx :
  nx <= length pre ->
  slice (pre ++ c :: s) nx (S (length pre))
  = slice (pre ++ c :: s) nx (length pre) ++ [c].
Proof.
  intros H. unfold slice.
  revert nx H. induction pre as [|a pre IH]; intros nx H; simpl in *.
  - assert (nx = 0) by lia. subst. reflexivity.
  - destruct nx as [|nx].
    + simpl. f_equal. specialize (IH 0 (Nat.le_0_l _)).
      simpl in IH. rewrite Nat.sub_0_r in IH. exact IH.
    + simpl. apply IH. lia.
Qed.

Section ReplaceEquiv.

Variable f : replacer.
Variable str : jsstring.

(** The matches found from the start of a leading run. *)
Lemma regexp_matches_leading pre0 leading s k :
  str = pre0 ++ leading ++ s ->
  forallb is_blank leading = true ->
  match s with [] => True | c :: _ => is_blank c = false end ->
  at_line_start str (length pre0) = true ->
  regexp_matches (S k) str (length pre0)
  = (length pre0, length pre0 + length leading)
      :: match s with
         | [] => []
         | _ :: _ => regexp_matches k str (S (length pre0 + length leading))
         end.
Proof.
  intros Hstr Hl Hs Hb.
  assert (Hlen : length str = length pre0 + length leading + length s).
  { subst str. rewrite !length_app. lia. }
  cbn [regexp_matches]. rewrite regexp_exec_here by (assumption || lia).
  assert (Htw : take_while is_blank (skipn (length pre0) str) = leading).
  { subst str. rewrite skipn_length_app. now apply take_while_all_blank. }
  rewrite Htw. f_equal.
  destruct (Nat.eqb_spec (length pre0 + length leading) (length pre0)) as [E|E].
  - (* an empty match: lastIndex is advanced by one *)
    destruct s as [|c s'].
    + destruct k; [reflexivity|]. cbn [regexp_matches].
      rewrite regexp_exec_beyond by (simpl in Hlen; lia). reflexivity.
    + reflexivity.
  - assert (Hne : leading <> []).
    { intros ->. simpl in E. lia. }
    pose proof (at_line_start_after_blanks pre0 leading s Hl Hne) as Hnb.
    rewrite <- Hstr in Hnb.
    rewrite regexp_matches_skip by (assumption || lia).
    destruct s as [|c s']; [|reflexivity].
    destruct k; [reflexivity|]. cbn [regexp_matches].
    rewrite regexp_exec_beyond by (simpl in Hlen; lia). reflexivity.
Qed.

Lemma replace_build_scan : forall s,
  (forall pre nx fuel,
      str = pre ++ s ->
      at_line_start str (length pre) = false ->
      nx <= length pre -> length s < fuel ->
      replace_build f str (regexp_matches fuel str (length pre)) nx
      = (rest <- replace_scan f str s (length pre) None ;;
         Ok (slice str nx (length pre) ++ rest)))
  /\
  (forall pre0 leading index nx fuel,
      str = pre0 ++ leading ++ s ->
      index = length pre0 + length leading ->
      forallb is_blank leading = true ->
      at_line_start str (length pre0) = true ->
      nx <= length pre0 -> length s < fuel ->
      replace_build f str (regexp_matches fuel str (length pre0)) nx
      = (rest <- replace_scan f str s index (Some (length pre0, leading)) ;;
         Ok (slice str nx (length pre0) ++ rest))).
Proof.
  induction s as [|c s' [IHn IHs]]; split.
  - (* end of the subject, no match under way *)
    intros pre nx fuel Hstr Hb Hnx Hfuel.
    rewrite app_nil_r in Hstr. subst pre.
    destruct fuel as [|k]; [simpl in Hfuel; lia|].
    cbn [regexp_matches].
    rewrite regexp_exec_skip, regexp_exec_beyond by (assumption || lia).
    simpl. rewrite app_nil_r, slice_full. reflexivity.
  - (* end of the subject inside a match *)
    intros pre0 leading index nx fuel Hstr -> Hl Hb Hnx Hfuel.
    destruct fuel as [|k]; [simpl in Hfuel; lia|].
    rewrite (regexp_matches_leading pre0 leading [] k) by (assumption || exact I).
    cbn [replace_build replace_scan].
    replace (slice str (length pre0) (length pre0 + length leading)) with leading.
    2:{ rewrite Hstr. symmetry. apply slice_app_mid. }
    destruct (f leading (length pre0) str) as [r|e]; simpl; [|reflexivity].
    destruct (Nat.leb_spec nx (length pre0)); [|lia].
    replace (skipn (length pre0 + length leading) str) with (@nil char).
    2:{ symmetry. apply skipn_all2. subst str. rewrite !length_app. simpl. lia. }
    rewrite app_nil_r. reflexivity.
  - (* a character outside any match *)
    intros pre nx fuel Hstr Hb Hnx Hfuel.
    assert (Hlen : length str = length pre + S (length s')).
    { subst str. rewrite length_app. reflexivity. }
    rewrite regexp_matches_skip by (assumption || lia).
    assert (Hstr' : str = (pre ++ [c]) ++ s').
    { rewrite <- app_assoc. exact Hstr. }
    assert (Hlen' : length (pre ++ [c]) = S (length pre)).
    { rewrite length_app. simpl. lia. }
    assert (Hsl : slice str nx (S (length pre)) = slice str nx (length pre) ++ [c]).
    { rewrite Hstr. now apply slice_snoc. }
    assert (Hbol : at_line_start str (S (length pre)) = is_line_terminator c).
    { rewrite Hstr. apply at_line_start_after. }
    cbn [replace_scan].
    destruct (is_line_terminator c) eqn:Et.
    + specialize (IHs (pre ++ [c]) [] (S (length pre)) nx fuel).
      rewrite Hlen' in IHs. rewrite IHs; try assumption; simpl in *; try lia.
      destruct (replace_scan f str s' (S (length pre)) (Some (S (length pre), [])));
        simpl; [|reflexivity].
      rewrite Hsl, <- app_assoc. reflexivity.
    + specialize (IHn (pre ++ [c]) nx fuel).
      rewrite Hlen' in IHn. rewrite IHn; try assumption; simpl in *; try lia.
      destruct (replace_scan f str s' (S (length pre)) None);
        simpl; [|reflexivity].
      rewrite Hsl, <- app_assoc. reflexivity.
  - (* a character met inside a match *)
    intros pre0 leading index nx fuel Hstr -> Hl Hb Hnx Hfuel.
    cbn [replace_scan].
    destruct (is_blank c) eqn:Ec.
    + (* one more blank of the leading run *)
      rewrite (IHs pre0 (leading ++ [c]) (S (length pre0 + length leading)) nx fuel);
        try assumption.
      * reflexivity.
      * rewrite Hstr, <- app_assoc. reflexivity.
      * rewrite length_app. simpl. lia.
      * now apply forallb_blank_snoc.
      * simpl in Hfuel. lia.
    + (* the match ends before [c] *)
      destruct fuel as [|k]; [simpl in Hfuel; lia|].
      rewrite (regexp_matches_leading pre0 leading (c :: s') k) by assumption.
      cbn [replace_build].
      replace (slice str (length pre0) (length pre0 + length leading)) with leading.
      2:{ rewrite Hstr. symmetry. apply slice_app_mid. }
      destruct (f leading (length pre0) str) as [r|e]; simpl; [|reflexivity].
      destruct (Nat.leb_spec nx (length pre0)); [|lia].
      set (pre := pre0 ++ leading).
      assert (Hpre : length pre = length pre0 + length leading).
      { unfold pre. apply length_app. }
      assert (Hstr0 : str = pre ++ c :: s').
      { unfold pre. rewrite <- app_assoc. exact Hstr. }
      assert (Hstr' : str = (pre ++ [c]) ++ s').
      { rewrite <- app_assoc. exact Hstr0. }
      assert (Hlen' : length (pre ++ [c]) = S (length pre)).
      { rewrite length_app. simpl. lia. }
      assert (Hsl : slice str (length pre) (S (length pre)) = [c]).
      { rewrite Hstr0, slice_snoc by lia. unfold slice.
        rewrite Nat.sub_diag. reflexivity. }
      assert (Hbol : at_line_start str (S (length pre)) = is_line_terminator c).
      { rewrite Hstr0. apply at_line_start_after. }
      rewrite <- Hpre.
      destruct (is_line_terminator c) eqn:Et.
      * specialize (IHs (pre ++ [c]) [] (S (length pre)) (length pre) k).
        rewrite Hlen' in IHs. rewrite IHs; try assumption; simpl in *; try lia.
        destruct (replace_scan f str s' (S (length pre)) (Some (S (length pre), [])));
          simpl; [|reflexivity].
        rewrite Hsl. reflexivity.
      * specialize (IHn (pre ++ [c]) (length pre) k).
        rewrite Hlen' in IHn. rewrite IHn; try assumption; simpl in *; try lia.
        destruct (replace_scan f str s' (S (length pre)) None);
          simpl; [|reflexivity].
        rewrite Hsl. reflexivity.
Qed.

(** The pattern matches at the start of the subject and behind every
    terminator, also between CR and LF and at the very end. *)
Example replaceAll_leading_marks_line_starts :
  replaceAll_leading (fun _ _ _ => Ok (js "X"))
    (js "a" ++ [LF] ++ js "  b" ++ [CR; LF])
  = Ok (js "Xa" ++ [LF] ++ js "Xb" ++ [CR] ++ js "X" ++ [LF] ++ js "X").
Proof. reflexivity. Qed.

(** The replacer sees the matched blanks and the offset of the match. *)
Example replaceAll_leading_arguments :
  replaceAll_leading
    (fun leading offset _ => Ok (repeat TAB (length leading + offset)))
    (js "  a" ++ [LF] ++ js " b")
  = Ok ([TAB; TAB] ++ js "a" ++ [LF] ++ repeat TAB 5 ++ js "b").
Proof. reflexivity. Qed.

(** The match-collecting loop and the one-pass scan compute the same
    replacement. *)
Lemma replaceAll_leading_scan :
  replaceAll_leading f str = replace_scan f str str 0 (Some (0, [])).
Proof.
  unfold replaceAll_leading.
  destruct (replace_build_scan str) as [_ H].
  specialize (H [] [] 0 0 (S (length str))).
  cbn [length app Nat.add] in H.
  rewrite H by (reflexivity || lia).
  unfold slice. simpl. apply bind_Ok_r.
Qed.

End ReplaceEquiv.

(* ================================================================== *)
(** * Lines *)
(* ================================================================== *)

Lemma terminator_not_blank c :
  is_line_terminator c = true -> is_blank c = false.
Proof.
  intros H. destruct (is_blank c) eqn:E; [|reflexivity].
  apply blank_not_terminator in E. congruence.
Qed.

Lemma js_lines_ok s : lines_ok (js_lines s).
Proof.
  induction s as [|c s IH]; simpl.
  - now apply lines_last.
  - destruct (is_line_terminator c) eqn:Ec.
    + now apply (lines_cons []).
    + inversion IH as [l Hl Heq | x t ls Hx Ht Hls Heq].
      * apply lines_last. unfold no_terminator in *. simpl. now rewrite Ec.
      * apply (lines_cons (c :: x)); try assumption.
        unfold no_terminator in *. simpl. now rewrite Ec.
Qed.

Lemma concat_js_lines s : concat (js_lines s) = s.
Proof.
  induction s as [|c s IH]; simpl; [reflexivity|].
  destruct (is_line_terminator c); simpl; [now rewrite IH|].
  pose proof (js_lines_ok s) as Hok.
  destruct (js_lines s) as [|l ls]; [inversion Hok|].
  simpl in *. now rewrite IH.
Qed.

Lemma js_lines_no_terminator l : no_terminator l -> js_lines l = [l].
Proof.
  unfold no_terminator. induction l as [|c l IH]; simpl; [reflexivity|].
  intros H. apply andb_true_iff in H. destruct H as [Hc Hl].
  apply negb_true_iff in Hc. rewrite Hc, IH by assumption. reflexivity.
Qed.

Lemma js_lines_app_line x t s :
  no_terminator x -> is_line_terminator t = true ->
  js_lines ((x ++ [t]) ++ s) = (x ++ [t]) :: js_lines s.
Proof.
  unfold no_terminator. intros Hx Ht.
  induction x as [|c x IH]; simpl in *.
  - now rewrite Ht.
  - apply andb_true_iff in Hx. destruct Hx as [Hc Hx].
    apply negb_true_iff in Hc. rewrite Hc, IH by assumption. reflexivity.
Qed.

Lemma js_lines_concat ls : lines_ok ls -> js_lines (concat ls) = ls.
Proof.
  induction 1 as [l Hl | x t ls Hx Ht Hls IH]; simpl.
  - rewrite app_nil_r. now apply js_lines_no_terminator.
  - rewrite js_lines_app_line, IH by assumption. reflexivity.
Qed.

Lemma no_terminator_app a b :
  no_terminator (a ++ b) <-> no_terminator a /\ no_terminator b.
Proof.
  unfold no_terminator. rewrite forallb_app. apply andb_true_iff.
Qed.

Lemma blanks_no_terminator r : forallb is_blank r = true -> no_terminator r.
Proof.
  unfold no_terminator. induction r as [|c r IH]; simpl; [reflexivity|].
  intros H. apply andb_true_iff in H. destruct H as [Hc Hr].
  rewrite (blank_not_terminator _ Hc), IH by assumption. reflexivity.
Qed.

Lemma drop_while_snoc x t :
  is_blank t = false ->
  drop_while is_blank (x ++ [t]) = drop_while is_blank x ++ [t].
Proof.
  intros Ht. induction x as [|c x IH]; simpl.
  - now rewrite Ht.
  - destruct (is_blank c); [exact IH|reflexivity].
Qed.

Lemma after_leading_no_terminator l :
  no_terminator l -> no_terminator (after_leading l).
Proof.
  intros H. rewrite <- (take_drop_while is_blank l) in H.
  apply no_terminator_app in H. apply H.
Qed.

(** Lines whose leading runs are replaced by blanks are lines again. *)
Lemma lines_ok_rewrite ls ls' :
  lines_ok ls ->
  Forall2 (fun l l' => exists r,
             l' = r ++ after_leading l /\ forallb is_blank r = true) ls ls' ->
  lines_ok ls'.
Proof.
  intros Hok. revert ls'.
  induction Hok as [l Hl | x t ls Hx Ht Hls IH]; intros ls' HF.
  - inversion HF as [|? l' ? ? [r [-> Hr]] HF']; subst.
    inversion HF'; subst. apply lines_last.
    apply no_terminator_app. split.
    + now apply blanks_no_terminator.
    + now apply after_leading_no_terminator.
  - inversion HF as [|? l' ? ls0 [r [-> Hr]] HF']; subst.
    unfold after_leading.
    rewrite drop_while_snoc by now apply terminator_not_blank.
    rewrite app_assoc. apply lines_cons; try assumption.
    + apply no_terminator_app. split.
      * now apply blanks_no_terminator.
      * now apply after_leading_no_terminator.
    + now apply IH.
Qed.

Lemma after_leading_rewrite r l :
  forallb is_blank r = true ->
  after_leading (r ++ after_leading l) = after_leading l.
Proof.
  intros Hr. apply drop_while_all_blank; [assumption|].
  apply drop_while_head.
Qed.

(** ** The scan, line by line *)

Section ScanLines.

Variable f : replacer.
Variable str : jsstring.

Lemma replace_scan_lines : forall s index,
  replace_scan f str s index None
  = match js_lines s with
    | l :: ls =>
        rest <- rewrite_lines f str (index + length l) ls ;; Ok (l ++ rest)
    | [] => Ok []
    end
  /\
  forall p leading,
    forallb is_blank leading = true ->
    replace_scan f str s index (Some (p, leading))
    = match js_lines s with
      | l :: ls =>
          r <- f (leading ++ leading_run l) p str ;;
          rest <- rewrite_lines f str (index + length l) ls ;;
          Ok (r ++ after_leading l ++ rest)
      | [] => Ok []
      end.
Proof.
  induction s as [|c s' IH]; intros index.
  - split; [reflexivity|]. intros p leading _. simpl.
    rewrite app_nil_r. destruct (f leading p str); simpl; [|reflexivity].
    now rewrite app_nil_r.
  - destruct (IH (S index)) as [IHn IHs]. clear IH.
    assert (Hnext : is_line_terminator c = true ->
              replace_scan f str s' (S index) (Some (S index, []))
              = rewrite_lines f str (index + 1) (js_lines s')).
    { intros _. rewrite (IHs (S index) []) by reflexivity.
      pose proof (js_lines_ok s') as Hok.
      destruct (js_lines s') as [|l ls]; [inversion Hok|].
      simpl. rewrite Nat.add_1_r. reflexivity. }
    pose proof (js_lines_ok s') as Hok.
    split.
    + cbn [replace_scan js_lines].
      destruct (is_line_terminator c) eqn:Et.
      * rewrite Hnext by reflexivity. cbn [length].
        destruct (rewrite_lines f str (index + 1) (js_lines s')); reflexivity.
      * rewrite IHn.
        destruct (js_lines s') as [|l ls]; [inversion Hok|].
        cbn [length Nat.add]. rewrite Nat.add_succ_r.
        destruct (rewrite_lines f str (S (index + length l)) ls); reflexivity.
    + intros p leading Hl. cbn [replace_scan js_lines].
      destruct (is_blank c) eqn:Eb.
      * rewrite (blank_not_terminator _ Eb).
        rewrite IHs by now apply forallb_blank_snoc.
        destruct (js_lines s') as [|l ls]; [inversion Hok|].
        unfold leading_run, after_leading. simpl. rewrite Eb.
        rewrite <- app_assoc. simpl. rewrite Nat.add_succ_r. reflexivity.
      * destruct (is_line_terminator c) eqn:Et.
        -- rewrite Hnext by reflexivity.
           unfold leading_run, after_leading. simpl. rewrite Eb.
           rewrite app_nil_r.
           destruct (f leading p str); simpl; [|reflexivity].
           destruct (rewrite_lines f str (index + 1) (js_lines s')); reflexivity.
        -- rewrite IHn.
           destruct (js_lines s') as [|l ls]; [inversion Hok|].
           unfold leading_run, after_leading. simpl. rewrite Eb.
           rewrite app_nil_r, Nat.add_succ_r. cbn [Nat.add].
           destruct (f leading p str); simpl; [|reflexivity].
           destruct (rewrite_lines f str (S (index + length l)) ls); reflexivity.
Qed.

(** [replaceAll] with [/^[ \t]*/gm] rewrites the leading run of every line of
    the subject. *)
Lemma replaceAll_leading_lines :
  replaceAll_leading f str = rewrite_lines f str 0 (js_lines str).
Proof.
  rewrite replaceAll_leading_scan.
  destruct (replace_scan_lines str 0) as [_ H].
  rewrite H by reflexivity.
  pose proof (js_lines_ok str) as Hok.
  destruct (js_lines str) as [|l ls]; [inversion Hok|]. reflexivity.
Qed.

End ScanLines.

Section RewriteLines.

Variable f : replacer.
Variable str : jsstring.

(** What the rewritten text looks like when the replacer is known on every
    line: [Q l r] relates a line to the text that replaces its leading run. *)
Lemma rewrite_lines_spec (Q : jsstring -> jsstring -> Prop) :
  (forall pre l post,
      str = pre ++ l ++ post -> (l = [] -> post = []) ->
      exists r, f (leading_run l) (length pre) str = Ok r /\ Q l r) ->
  forall ls, lines_ok ls ->
  forall pre, str = pre ++ concat ls ->
  exists ls',
    rewrite_lines f str (length pre) ls = Ok (concat ls') /\
    Forall2 (fun l l' => exists r, l' = r ++ after_leading l /\ Q l r) ls ls'.
Proof.
  intros Hf ls Hok.
  induction Hok as [l Hl | x t ls Hx Ht Hls IH]; intros pre Hstr.
  - simpl in Hstr.
    destruct (Hf pre l [] Hstr (fun _ => eq_refl)) as [r [Hr HQ]].
    exists [r ++ after_leading l]. split.
    + simpl. rewrite Hr. simpl. rewrite !app_nil_r. reflexivity.
    + constructor; [|constructor]. exists r. split; [reflexivity|exact HQ].
  - simpl in Hstr.
    destruct (Hf pre (x ++ [t]) (concat ls)) as [r [Hr HQ]].
    + rewrite Hstr, <- !app_assoc. reflexivity.
    + intros E. destruct x; discriminate E.
    + destruct (IH (pre ++ x ++ [t])) as [ls' [Hrw HF]].
      { rewrite Hstr, <- !app_assoc. reflexivity. }
      exists ((r ++ after_leading (x ++ [t])) :: ls'). split.
      * cbn [rewrite_lines]. rewrite Hr. cbn [bind].
        rewrite length_app in Hrw. rewrite Hrw. simpl.
        rewrite <- app_assoc. reflexivity.
      * constructor; [|exact HF]. exists r. split; [reflexivity|exact HQ].
Qed.

(** The same for the whole of [replaceAll]; the rewritten text has the
    lines [ls']. *)
Lemma replaceAll_leading_spec (Q : jsstring -> jsstring -> Prop) :
  (forall pre l post,
      str = pre ++ l ++ post -> (l = [] -> post = []) ->
      exists r, f (leading_run l) (length pre) str = Ok r /\
                forallb is_blank r = true /\ Q l r) ->
  exists replacement,
    replaceAll_leading f str = Ok replacement /\
    Forall2 (fun l l' => exists r, l' = r ++ after_leading l /\
                                    forallb is_blank r = true /\ Q l r)
            (js_lines str) (js_lines replacement).
Proof.
  intros Hf.
  destruct (rewrite_lines_spec
              (fun l r => forallb is_blank r = true /\ Q l r) Hf
              (js_lines str) (js_lines_ok str) []
              (eq_sym (concat_js_lines str)))
    as [ls' [Hrw HF]].
  exists (concat ls'). split.
  - rewrite replaceAll_leading_lines. exact Hrw.
  - rewrite js_lines_concat; [exact HF|].
    apply (lines_ok_rewrite (js_lines str)); [apply js_lines_ok|].
    eapply Forall2_impl; [|exact HF].
    intros l l' [r [E [Hb _]]]. exists r. split; assumption.
Qed.

End RewriteLines.

(* ================================================================== *)
(** * Numbers *)
(* ================================================================== *)

Lemma to_int32_small z :
  (- 2 ^ 31 <= z < 2 ^ 31)%Z -> to_int32 z = z.
Proof.
  unfold to_int32.
  change (2 ^ 31)%Z with 2147483648%Z.
  change (2 ^ 32)%Z with 4294967296%Z.
  intros Hz.
  pose proof (Z.mod_pos_bound z 4294967296 eq_refl) as Hm.
  pose proof (Z.div_mod z 4294967296 ltac:(discriminate)) as Hd.
  destruct (Z.ltb_spec (z mod 4294967296) 2147483648); lia.
Qed.

(** The tab count of block indentation, below the [ToInt32] range. *)
Lemma indent_tab_count w T n :
  0 < T -> w <= n * T -> (Z.of_nat n < 2 ^ 31)%Z ->
  (1 + trunc_div (Z.of_nat w) (Z.of_nat T))%Z = Z.of_nat (w / T + 1).
Proof.
  intros HT Hw Hn. unfold trunc_div.
  rewrite Z.quot_div_nonneg, <- Nat2Z.inj_div by lia.
  assert (w / T <= n) by (apply Nat.Div0.div_le_upper_bound; lia).
  rewrite to_int32_small by lia. lia.
Qed.

(** The tab count of [outdent], below the [ToInt32] range: it is positive
    only from two tab stops on. *)
Lemma outdent_tab_count w T n :
  0 < T -> w <= n * T -> (Z.of_nat n < 2 ^ 31)%Z ->
  Z.max 0 (trunc_div (Z.of_nat w - Z.of_nat T) (Z.of_nat T))
  = Z.of_nat (w / T - 1).
Proof.
  intros HT Hw Hn. unfold trunc_div.
  assert (Hq : w / T <= n) by (apply Nat.Div0.div_le_upper_bound; lia).
  destruct (Nat.lt_ge_cases w T) as [Hlt|Hge].
  - (* less than one tab stop: the quotient is -1 or 0 *)
    rewrite (Nat.div_small w T) by assumption.
    replace (Z.of_nat w - Z.of_nat T)%Z with (- (Z.of_nat (T - w)))%Z by lia.
    rewrite Z.quot_opp_l by lia.
    rewrite Z.quot_div_nonneg, <- Nat2Z.inj_div by lia.
    assert (Hle : (T - w) / T <= 1) by (apply Nat.Div0.div_le_upper_bound; lia).
    rewrite to_int32_small by lia. simpl. lia.
  - replace (Z.of_nat w - Z.of_nat T)%Z with (Z.of_nat (w - T)) by lia.
    rewrite Z.quot_div_nonneg, <- Nat2Z.inj_div by lia.
    assert (Hdiv : (w - T) / T = w / T - 1).
    { replace w with ((w - T) + 1 * T) at 2 by lia.
      rewrite Nat.div_add by lia. lia. }
    rewrite Hdiv. rewrite to_int32_small by lia. lia.
Qed.

(** Without a tab width the quotient is not a number and [~~] gives 0. *)
Lemma trunc_div_0_r a : trunc_div a 0 = 0%Z.
Proof. unfold trunc_div. destruct a; reflexivity. Qed.

(* ================================================================== *)
(** * Leading-whitespace width *)
(* ================================================================== *)

Lemma countLeadingSpaces_0 l T : countLeadingSpaces l 0 T = countBlanks l T.
Proof. reflexivity. Qed.

Lemma countBlanks_leading_run l T :
  countBlanks (leading_run l) T = countBlanks l T.
Proof.
  unfold leading_run. induction l as [|c l IH]; simpl; [reflexivity|].
  destruct (is_blank c) eqn:Eb; simpl.
  - now rewrite IH.
  - unfold is_blank in Eb. apply orb_false_iff in Eb.
    destruct Eb as [-> ->]. reflexivity.
Qed.

Lemma countBlanks_app_blanks r s T :
  forallb is_blank r = true ->
  match s with [] => True | c :: _ => is_blank c = false end ->
  countBlanks (r ++ s) T = countBlanks r T.
Proof.
  intros Hr Hs.
  rewrite <- (countBlanks_leading_run (r ++ s)).
  unfold leading_run. now rewrite take_while_all_blank.
Qed.

Lemma countBlanks_bound l T : countBlanks l T <= length l * Nat.max 1 T.
Proof.
  pose proof (Nat.le_max_l 1 T). pose proof (Nat.le_max_r 1 T).
  set (m := Nat.max 1 T) in *.
  induction l as [|c l IH]; simpl; [lia|].
  destruct (N.eqb c SPACE); [lia|].
  destruct (N.eqb c TAB); lia.
Qed.

Lemma countBlanks_repeat_space n T : countBlanks (repeat SPACE n) T = n.
Proof. induction n; simpl; congruence. Qed.

Lemma countBlanks_repeat_tab n T : countBlanks (repeat TAB n) T = n * T.
Proof. induction n; simpl; congruence. Qed.

Lemma countBlanks_zero l T :
  0 < T -> countBlanks l T = 0 -> leading_run l = [].
Proof.
  intros HT H. destruct l as [|c l]; [reflexivity|].
  unfold leading_run, is_blank. simpl in *.
  destruct (N.eqb c SPACE); [discriminate|].
  destruct (N.eqb c TAB); [lia|reflexivity].
Qed.

Lemma forallb_blank_repeat c n :
  is_blank c = true -> forallb is_blank (repeat c n) = true.
Proof. intros H. induction n; simpl; [reflexivity|]. now rewrite H. Qed.

(* ================================================================== *)
(** * The two replacers *)
(* ================================================================== *)

Lemma js_repeat_of_nat c n : js_repeat c (Z.of_nat n) = Ok (repeat c n).
Proof.
  unfold js_repeat. destruct (Z.ltb_spec (Z.of_nat n) 0); [lia|].
  now rewrite Nat2Z.id.
Qed.

Lemma char_is_app_head pre l post c :
  (l = [] -> post = []) ->
  char_is (pre ++ l ++ post) (length pre) c
  = match l with [] => false | x :: _ => N.eqb x c end.
Proof.
  intros H. unfold char_is. destruct l as [|x l].
  - rewrite (H eq_refl), app_nil_r.
    replace (nth_error pre (length pre)) with (@None N); [reflexivity|].
    symmetry. apply nth_error_None. lia.
  - simpl. now rewrite nth_error_length_app.
Qed.

Lemma blank_SPACE : is_blank SPACE = true.
Proof. reflexivity. Qed.

Lemma blank_TAB : is_blank TAB = true.
Proof. reflexivity. Qed.

(** Block indentation replaces the leading run of a line with content by
    blanks that reach the next tab stop; it never raises below 2^31. *)
Lemma indentReplacer_ok config line_end pre l post :
  (l = [] -> post = []) ->
  (Z.of_nat (length (pre ++ l ++ post)) < 2 ^ 31)%Z ->
  length (pre ++ l ++ post) <= line_end ->
  exists r,
    indentReplacer config line_end (leading_run l) (length pre) (pre ++ l ++ post)
    = Ok r /\
    forallb is_blank r = true /\
    (0 < tabSize config -> empty_line l = false ->
     countBlanks r (tabSize config)
     = (countBlanks l (tabSize config) / tabSize config + 1) * tabSize config).
Proof.
  intros Hl Hlen Hend. unfold indentReplacer.
  rewrite !char_is_app_head by assumption.
  rewrite !length_app in *.
  set (T := tabSize config).
  set (skip := _ || _ || _).
  destruct skip eqn:Eskip.
  - (* the leading run is returned as it is *)
    exists (leading_run l). split; [reflexivity|]. split.
    + apply take_while_forallb.
    + intros _ He. exfalso. subst skip.
      destruct l as [|x l]; [discriminate He|].
      simpl in He, Hend. unfold is_line_terminator in He.
      apply orb_false_iff in He. destruct He as [He _].
      apply orb_false_iff in He. destruct He as [He _].
      apply orb_false_iff in He. destruct He as [H1 H2].
      rewrite H1, H2 in Eskip. simpl in Eskip.
      apply Nat.eqb_eq in Eskip. lia.
  - rewrite countLeadingSpaces_0, countBlanks_leading_run.
    set (w := countBlanks l T).
    destruct (Nat.eq_dec T 0) as [E0|Hpos].
    + (* no tab width: one stop of width zero *)
      rewrite E0. change (Z.of_nat 0) with 0%Z. rewrite trunc_div_0_r.
      destruct (insertSpaces config).
      * exists []. split; [reflexivity|]. split; [reflexivity|]. intros; lia.
      * exists [TAB]. split; [reflexivity|]. split; [reflexivity|]. intros; lia.
    + assert (Hw : w <= length l * T).
      { unfold w. pose proof (countBlanks_bound l T).
        replace (Nat.max 1 T) with T in * by lia. assumption. }
      rewrite (indent_tab_count w T (length l)) by lia.
      destruct (insertSpaces config).
      * rewrite <- Nat2Z.inj_mul, js_repeat_of_nat.
        eexists. split; [reflexivity|]. split.
        -- apply forallb_blank_repeat, blank_SPACE.
        -- intros _ _. apply countBlanks_repeat_space.
      * rewrite js_repeat_of_nat.
        eexists. split; [reflexivity|]. split.
        -- apply forallb_blank_repeat, blank_TAB.
        -- intros _ _. apply countBlanks_repeat_tab.
Qed.

Lemma outdent_tab_count_no_blanks T :
  (trunc_div (Z.of_nat 0 - Z.of_nat T) (Z.of_nat T) <= 0)%Z.
Proof.
  destruct (Nat.eq_dec T 0) as [->|HT].
  - rewrite trunc_div_0_r. lia.
  - assert (H : Z.max 0 (trunc_div (Z.of_nat 0 - Z.of_nat T) (Z.of_nat T))
                 = Z.of_nat (0 / T - 1)).
    { apply (outdent_tab_count 0 T 0); [lia|lia|reflexivity]. }
    rewrite Nat.Div0.div_0_l in H. change (Z.of_nat (0 - 1)) with 0%Z in H. lia.
Qed.

(** [outdent] replaces a leading run of width [w] by blanks of width
    [(w / tabSize - 1) * tabSize]; it never raises. *)
Lemma outdentReplacer_ok config l offset str :
  exists r,
    outdentReplacer config (leading_run l) offset str = Ok r /\
    forallb is_blank r = true /\
    (leading_run l = [] -> r = []) /\
    (0 < tabSize config -> (Z.of_nat (length l) < 2 ^ 31)%Z ->
     countBlanks r (tabSize config)
     = (countBlanks l (tabSize config) / tabSize config - 1) * tabSize config).
Proof.
  unfold outdentReplacer.
  rewrite countLeadingSpaces_0, countBlanks_leading_run.
  set (T := tabSize config). set (w := countBlanks l T).
  set (tc := trunc_div (Z.of_nat w - Z.of_nat T) (Z.of_nat T)).
  assert (Hmax : 0 < T -> (Z.of_nat (length l) < 2 ^ 31)%Z ->
                 Z.max 0 tc = Z.of_nat (w / T - 1)).
  { intros HT Hn. apply (outdent_tab_count w T (length l)); try assumption.
    unfold w. pose proof (countBlanks_bound l T).
    replace (Nat.max 1 T) with T in * by lia. assumption. }
  assert (Hnone : leading_run l = [] -> (tc <= 0)%Z).
  { intros E. unfold tc, w.
    rewrite <- (countBlanks_leading_run l), E. apply outdent_tab_count_no_blanks. }
  destruct (Z.leb_spec tc 0) as [Hle|Hgt].
  - exists []. repeat split; try reflexivity.
    intros HT Hn. specialize (Hmax HT Hn).
    assert (w / T - 1 = 0) by lia. simpl. lia.
  - assert (Htc : tc = Z.of_nat (Z.to_nat tc)) by lia.
    destruct (insertSpaces config).
    + rewrite Htc, <- Nat2Z.inj_mul, js_repeat_of_nat.
      eexists. split; [reflexivity|]. split; [|split].
      * apply forallb_blank_repeat, blank_SPACE.
      * intros E. specialize (Hnone E). lia.
      * intros HT Hn. specialize (Hmax HT Hn).
        rewrite countBlanks_repeat_space. f_equal. lia.
    + rewrite Htc, js_repeat_of_nat.
      eexists. split; [reflexivity|]. split; [|split].
      * apply forallb_blank_repeat, blank_TAB.
      * intros E. specialize (Hnone E). lia.
      * intros HT Hn. specialize (Hmax HT Hn).
        rewrite countBlanks_repeat_tab. f_equal. lia.
Qed.

(* ================================================================== *)
(** * Line boundaries and range rewrites *)
(* ================================================================== *)

Lemma getLineStart_le v i : getLineStart v i <= i.
Proof.
  induction i as [|i IH]; simpl; [lia|].
  destruct (char_is v i LF); lia.
Qed.

Lemma scanLineEnd_ge rest i : i <= scanLineEnd rest i.
Proof.
  revert i. induction rest as [|c rest IH]; intros i; simpl; [lia|].
  destruct (N.eqb c LF || N.eqb c CR); [lia|].
  specialize (IH (S i)). lia.
Qed.

Lemma getLineEnd_ge v i : i - 1 <= getLineEnd v i.
Proof.
  unfold getLineEnd.
  destruct (_ && _); [lia|].
  pose proof (scanLineEnd_ge (skipn i v) i). lia.
Qed.

Lemma isMultiLine_nonempty v a b : isMultiLine v a b = true -> a < b.
Proof.
  unfold isMultiLine. destruct (b - a) eqn:E; simpl; [discriminate|lia].
Qed.

Lemma indentBlockMode_nonempty input :
  selection_ok input -> indentBlockMode input = true ->
  selectionStart input < selectionEnd input.
Proof.
  intros [Hse _] H. unfold indentBlockMode in H.
  apply orb_true_iff in H. destruct H as [H|H].
  - apply andb_true_iff in H. destruct H as [H _].
    apply andb_true_iff in H. destruct H as [H _].
    apply negb_true_iff, Nat.eqb_neq in H. lia.
  - now apply isMultiLine_nonempty in H.
Qed.

Lemma firstn_min_length (A : Type) (n : nat) (l : list A) :
  firstn (Nat.min n (length l)) l = firstn n l.
Proof.
  destruct (Nat.le_ge_cases n (length l)).
  - now rewrite Nat.min_l.
  - rewrite Nat.min_r by assumption.
    rewrite firstn_all, firstn_all2; [reflexivity|assumption].
Qed.

Lemma skipn_min_length (A : Type) (n : nat) (l : list A) :
  skipn (Nat.min n (length l)) l = skipn n l.
Proof.
  destruct (Nat.le_ge_cases n (length l)).
  - now rewrite Nat.min_l.
  - rewrite Nat.min_r by assumption.
    rewrite skipn_all, skipn_all2; [reflexivity|assumption].
Qed.

(** A range rewrite with [start <= end] succeeds, replaces exactly the range
    and is recorded. *)
Lemma setRangeText_ok replacement start end_ mode input :
  start <= end_ ->
  exists input',
    setRangeText replacement start end_ mode input = Ok input' /\
    value input' = firstn start (value input) ++ replacement
                   ++ skipn end_ (value input) /\
    effects input'
    = effects input ++ [RangeRewrite replacement start end_ mode].
Proof.
  intros H. unfold setRangeText.
  destruct (Nat.ltb_spec end_ start); [lia|].
  destruct mode; cbn zeta; cbv beta iota;
    (eexists; split; [reflexivity|]; cbn [value effects];
     rewrite firstn_min_length, skipn_min_length; split; reflexivity).
Qed.

Lemma skipn_length_firstn (A : Type) (k : nat) (s : list A) :
  skipn (length (firstn k s)) s = skipn k s.
Proof.
  revert s. induction k as [|k IH]; intros [|a s]; simpl; auto.
Qed.

(** Any string is a prefix, a slice, and what follows the slice. *)
Lemma value_split v a b :
  v = firstn a v ++ slice v a b ++ skipn (a + length (slice v a b)) v.
Proof.
  unfold slice.
  rewrite Nat.add_comm, <- skipn_skipn, skipn_length_firstn.
  rewrite (firstn_skipn (b - a) (skipn a v)).
  now rewrite firstn_skipn.
Qed.

Lemma skipn_after_slice v a b :
  skipn (a + length (slice v a b)) v = skipn (Nat.max a b) v.
Proof.
  unfold slice. rewrite length_firstn, length_skipn.
  destruct (Nat.le_ge_cases (Nat.max a b) (length v)) as [H|H].
  - f_equal. lia.
  - rewrite (skipn_all2 v H). apply skipn_all2. lia.
Qed.

Lemma slice_empty v a b : b <= a -> slice v a b = [].
Proof.
  intros H. unfold slice. replace (b - a) with 0 by lia. reflexivity.
Qed.

Lemma length_slice_le v a b : length (slice v a b) <= b.
Proof. unfold slice. rewrite length_firstn. lia. Qed.

Lemma length_slice_le_length v a b : length (slice v a b) <= length v.
Proof. unfold slice. rewrite length_firstn, length_skipn. lia. Qed.

Lemma jsstring_eqb_eq a b : jsstring_eqb a b = true <-> a = b.
Proof.
  unfold jsstring_eqb. destruct (list_eq_dec N.eq_dec a b); split;
    intros; congruence.
Qed.

(* ================================================================== *)
(** * What [outdent] and block [indent] do, line by line *)
(* ================================================================== *)

Lemma indent_branches input config :
  indent input config
  = if indentBlockMode input then indentBlock input config
    else indentCaret input config.
Proof. reflexivity. Qed.

Lemma js_lines_nil : js_lines [] = [[]].
Proof. reflexivity. Qed.

Lemma Forall2_single (A B : Type) (R : A -> B -> Prop) (a : A) (ys : list B) :
  Forall2 R [a] ys -> exists b, ys = [b] /\ R a b.
Proof.
  intros H. inversion H as [|? b ? ys' HR HF]; subst.
  inversion HF; subst. exists b. split; [reflexivity|assumption].
Qed.

(** [outdent] never raises.  It returns the control untouched when the
    rebuilt text equals the slice, and otherwise rewrites the line range
    once and dispatches one event.  Line by line, the rebuilt text differs
    from the slice in the leading runs only. *)
Lemma outdent_lines input config :
  let v := value input in
  let ls := getLineStart v (selectionStart input) in
  let le := getLineEnd v (selectionEnd input) in
  let T := tabSize config in
  exists input' replacement,
    outdent input config = Ok input' /\
    replaceAll_leading (outdentReplacer config) (slice v ls le) = Ok replacement /\
    (replacement = slice v ls le -> input' = input) /\
    (replacement <> slice v ls le ->
     ls <= le /\
     exists input1,
       setRangeText replacement ls le Preserve input = Ok input1 /\
       input' = dispatchInputEvent input1) /\
    value input' = firstn ls v ++ replacement ++ skipn (Nat.max ls le) v /\
    Forall2 (fun l l' => exists r,
               l' = r ++ after_leading l /\
               forallb is_blank r = true /\
               (leading_run l = [] -> r = []) /\
               (0 < T -> (Z.of_nat (length v) < 2 ^ 31)%Z ->
                countBlanks r T = (countBlanks l T / T - 1) * T))
            (js_lines (slice v ls le)) (js_lines replacement).
Proof.
  intros v ls le T.
  destruct (replaceAll_leading_spec (outdentReplacer config) (slice v ls le)
              (fun l r =>
                 (leading_run l = [] -> r = []) /\
                 (0 < T -> (Z.of_nat (length v) < 2 ^ 31)%Z ->
                  countBlanks r T = (countBlanks l T / T - 1) * T)))
    as [replacement [Hrep HF]].
  { intros pre l post Hstr _.
    destruct (outdentReplacer_ok config l (length pre) (slice v ls le))
      as [r [Hr [Hb [Hn Hw]]]].
    exists r. repeat split; try assumption.
    intros HT Hlen. apply Hw; [assumption|].
    pose proof (length_slice_le_length v ls le) as Hs.
    rewrite Hstr, !length_app in Hs. lia. }
  assert (Hempty : le < ls -> replacement = slice v ls le).
  { intros Hlt. rewrite (slice_empty v) in * by lia.
    rewrite js_lines_nil in HF.
    apply Forall2_single in HF. destruct HF as [l' [El [r [E [_ [Hn _]]]]]].
    rewrite (Hn eq_refl) in E. simpl in E.
    rewrite <- (concat_js_lines replacement), El, E. reflexivity. }
  unfold outdent. fold v. fold ls. fold le. rewrite Hrep. cbn [bind].
  destruct (jsstring_eqb replacement (slice v ls le)) eqn:Eq.
  - apply jsstring_eqb_eq in Eq.
    exists input, replacement.
    split; [reflexivity|]. split; [reflexivity|].
    split; [reflexivity|]. split; [intros Hne; contradiction|].
    split; [|exact HF].
    fold v. rewrite Eq, <- skipn_after_slice. apply value_split.
  - assert (Hne : replacement <> slice v ls le).
    { intros E. apply jsstring_eqb_eq in E. congruence. }
    assert (Hle : ls <= le).
    { destruct (Nat.le_gt_cases ls le); [assumption|].
      exfalso. apply Hne. now apply Hempty. }
    destruct (setRangeText_ok replacement ls le Preserve input Hle)
      as [input1 [Hset [Hval Heff]]].
    rewrite Hset. cbn [bind].
    exists (dispatchInputEvent input1), replacement.
    split; [reflexivity|]. split; [reflexivity|].
    split; [intros E; contradiction|].
    split; [intros _; split; [exact Hle|exists input1; split; [exact Hset|reflexivity]]|].
    split; [|exact HF].
    cbn [dispatchInputEvent value]. rewrite Hval. fold v.
    now rewrite Nat.max_r.
Qed.

(** Block [indent] below 2^31 code units never raises; it rewrites the line
    range once and dispatches one event, and line by line the rebuilt text
    differs from the slice in the leading runs only. *)
Lemma indentBlock_lines input config :
  let v := value input in
  let ls := getLineStart v (selectionStart input) in
  let le := getLineEnd v (selectionEnd input) in
  let T := tabSize config in
  selection_ok input ->
  (Z.of_nat (length v) < 2 ^ 31)%Z ->
  indentBlockMode input = true ->
  exists input1 replacement,
    indent input config = Ok (dispatchInputEvent input1) /\
    replaceAll_leading (indentReplacer config le) (slice v ls le) = Ok replacement /\
    setRangeText replacement ls le Preserve input = Ok input1 /\
    ls <= le /\
    value input1 = firstn ls v ++ replacement ++ skipn le v /\
    effects input1 = effects input ++ [RangeRewrite replacement ls le Preserve] /\
    Forall2 (fun l l' => exists r,
               l' = r ++ after_leading l /\
               forallb is_blank r = true /\
               (0 < T -> empty_line l = false ->
                countBlanks r T = (countBlanks l T / T + 1) * T))
            (js_lines (slice v ls le)) (js_lines replacement).
Proof.
  intros v ls le T Hsel Hlen Hmode.
  pose proof (indentBlockMode_nonempty input Hsel Hmode) as Hne.
  assert (Hle : ls <= le).
  { pose proof (getLineStart_le v (selectionStart input)).
    pose proof (getLineEnd_ge v (selectionEnd input)).
    unfold ls, le. lia. }
  destruct (replaceAll_leading_spec (indentReplacer config le) (slice v ls le)
              (fun l r =>
                 0 < T -> empty_line l = false ->
                 countBlanks r T = (countBlanks l T / T + 1) * T))
    as [replacement [Hrep HF]].
  { intros pre l post Hstr Hl.
    pose proof (length_slice_le_length v ls le) as Hs1.
    pose proof (length_slice_le v ls le) as Hs2.
    rewrite Hstr in *.
    apply indentReplacer_ok; [assumption|lia|assumption]. }
  destruct (setRangeText_ok replacement ls le Preserve input Hle)
    as [input1 [Hset [Hval Heff]]].
  exists input1, replacement.
  rewrite indent_branches, Hmode. unfold indentBlock.
  fold v. fold ls. fold le. rewrite Hrep. cbn [bind]. rewrite Hset. cbn [bind].
  repeat split; assumption.
Qed.

(* ================================================================== *)
(** * Properties of [indent] and [outdent] *)
(* ================================================================== *)

Lemma width_after_rewrite r l T :
  forallb is_blank r = true ->
  countLeadingSpaces (r ++ after_leading l) 0 T = countBlanks r T.
Proof.
  intros Hr. rewrite countLeadingSpaces_0.
  apply countBlanks_app_blanks; [assumption|apply drop_while_head].
Qed.

Lemma next_stop_bounds w T :
  0 < T -> w + 1 <= (w / T + 1) * T <= w + T.
Proof.
  intros HT.
  pose proof (Nat.div_mod_eq w T) as Hd.
  pose proof (Nat.mod_upper_bound w T ltac:(lia)) as Hm.
  rewrite Nat.mul_add_distr_r, Nat.mul_1_l, (Nat.mul_comm (w / T) T). lia.
Qed.

Lemma previous_stop_bounds w T :
  0 < T ->
  (w / T - 1) * T <= w /\
  w - (w / T - 1) * T < 2 * T /\
  (w mod T = 0 -> w - (w / T - 1) * T <= T).
Proof.
  intros HT.
  pose proof (Nat.div_mod_eq w T) as Hd.
  pose proof (Nat.mod_upper_bound w T ltac:(lia)) as Hm.
  destruct (w / T) as [|q]; simpl.
  - lia.
  - rewrite Nat.sub_0_r. rewrite Nat.mul_succ_r in Hd.
    rewrite (Nat.mul_comm q T). lia.
Qed.

(** C1.  With the buffer ["abc"], the caret at offset 3, tabSize 4 and
    insertSpaces, [indent] pads to the next tab stop: one space is appended
    and the caret is left at offset 4. *)
Theorem indent_abc_pads_to_next_stop :
  indent abc_caret_end spaces4
  = Ok {| value := js "abc ";
          selectionStart := 4;
          selectionEnd := 4;
          effects := [RangeRewrite (js " ") 3 3 End_; InputEvent] |}.
Proof. reflexivity. Qed.

(** C1, as stated: the result is not ["abc    "] with the caret at 7. *)
Lemma indent_abc_not_four_spaces :
  ~ exists input',
      indent abc_caret_end spaces4 = Ok input' /\
      value input' = js "abc    " /\
      selectionStart input' = 7 /\ selectionEnd input' = 7.
Proof.
  intros [input' [H [Hv _]]].
  vm_compute in H. injection H as <-. discriminate Hv.
Qed.

(** C5.  In block mode, [indent] moves every line of the range that has
    content to the next tab stop: its leading-whitespace width grows by at
    least 1 and at most tabSize.  (Lines are those of the pattern; the buffer
    is below 2^31 code units, where [~~] is exact.) *)
Theorem indent_block_increases_width input config :
  selection_ok input ->
  0 < tabSize config ->
  (Z.of_nat (length (value input)) < 2 ^ 31)%Z ->
  indentBlockMode input = true ->
  let v := value input in
  let line_start := getLineStart v (selectionStart input) in
  let line_end := getLineEnd v (selectionEnd input) in
  exists input' replacement,
    indent input config = Ok input' /\
    value input' = firstn line_start v ++ replacement ++ skipn line_end v /\
    Forall2 (fun l l' =>
               empty_line l = false ->
               countLeadingSpaces l 0 (tabSize config) + 1
               <= countLeadingSpaces l' 0 (tabSize config)
               <= countLeadingSpaces l 0 (tabSize config) + tabSize config)
            (js_lines (slice v line_start line_end)) (js_lines replacement).
Proof.
  intros Hsel HT Hlen Hmode v line_start line_end.
  destruct (indentBlock_lines input config Hsel Hlen Hmode)
    as [input1 [replacement [Hind [_ [_ [_ [Hval [_ HF]]]]]]]].
  exists (dispatchInputEvent input1), replacement.
  split; [exact Hind|]. split; [exact Hval|].
  eapply Forall2_impl; [|exact HF].
  intros l l' [r [-> [Hb Hw]]] He.
  rewrite width_after_rewrite by assumption.
  rewrite (Hw HT He), countLeadingSpaces_0.
  now apply next_stop_bounds.
Qed.

Lemma indent_block_increases_width_witness :
  exists input' replacement,
    indent a_b_selected spaces4 = Ok input' /\
    value input'
    = firstn (getLineStart (value a_b_selected) 0) (value a_b_selected)
      ++ replacement
      ++ skipn (getLineEnd (value a_b_selected) 3) (value a_b_selected) /\
    Forall2 (fun l l' =>
               empty_line l = false ->
               countLeadingSpaces l 0 4 + 1
               <= countLeadingSpaces l' 0 4
               <= countLeadingSpaces l 0 4 + 4)
            (js_lines (slice (value a_b_selected)
                         (getLineStart (value a_b_selected) 0)
                         (getLineEnd (value a_b_selected) 3)))
            (js_lines replacement).
Proof.
  apply (indent_block_increases_width a_b_selected spaces4).
  - split; vm_compute; lia.
  - vm_compute; lia.
  - reflexivity.
  - reflexivity.
Defined.

(** C10.  [outdent], and [indent] in block mode, leave the buffer before
    [line_start] and from [line_end] on as it was; inside the range the
    lines stay the same in number and order, and every line keeps its
    terminator and what follows its leading run of spaces and tabs. *)
Theorem indent_outdent_frame input config :
  let v := value input in
  let line_start := getLineStart v (selectionStart input) in
  let line_end := getLineEnd v (selectionEnd input) in
  (exists input' replacement,
      outdent input config = Ok input' /\
      value input'
      = firstn line_start v ++ replacement
        ++ skipn (Nat.max line_start line_end) v /\
      Forall2 (fun l l' => after_leading l' = after_leading l)
              (js_lines (slice v line_start line_end)) (js_lines replacement))
  /\
  (selection_ok input ->
   (Z.of_nat (length v) < 2 ^ 31)%Z ->
   indentBlockMode input = true ->
   exists input' replacement,
     indent input config = Ok input' /\
     value input' = firstn line_start v ++ replacement ++ skipn line_end v /\
     Forall2 (fun l l' => after_leading l' = after_leading l)
             (js_lines (slice v line_start line_end)) (js_lines replacement)).
Proof.
  intros v line_start line_end. split.
  - destruct (outdent_lines input config)
      as [input' [replacement [Hout [_ [_ [_ [Hval HF]]]]]]].
    exists input', replacement.
    split; [exact Hout|]. split; [exact Hval|].
    eapply Forall2_impl; [|exact HF].
    intros l l' [r [-> [Hb _]]]. now apply after_leading_rewrite.
  - intros Hsel Hlen Hmode.
    destruct (indentBlock_lines input config Hsel Hlen Hmode)
      as [input1 [replacement [Hind [_ [_ [_ [Hval [_ HF]]]]]]]].
    exists (dispatchInputEvent input1), replacement.
    split; [exact Hind|]. split; [exact Hval|].
    eapply Forall2_impl; [|exact HF].
    intros l l' [r [-> [Hb _]]]. now apply after_leading_rewrite.
Qed.

Lemma indent_outdent_frame_witness :
  exists input' replacement,
    indent a_b_selected tabs4 = Ok input' /\
    value input'
    = firstn (getLineStart (value a_b_selected) 0) (value a_b_selected)
      ++ replacement
      ++ skipn (getLineEnd (value a_b_selected) 3) (value a_b_selected) /\
    Forall2 (fun l l' => after_leading l' = after_leading l)
            (js_lines (slice (value a_b_selected)
                         (getLineStart (value a_b_selected) 0)
                         (getLineEnd (value a_b_selected) 3)))
            (js_lines replacement).
Proof.
  apply (indent_outdent_frame a_b_selected tabs4).
  - split; vm_compute; lia.
  - reflexivity.
  - reflexivity.
Defined.

(** C2, as amended.  [outdent] sets the leading-whitespace width [w] of
    every line of the range to [(w / tabSize - 1) * tabSize], cut off at
    zero: the width never grows, less than two tab widths are removed, and
    at most one tab width when [w] is a multiple of tabSize. *)
Theorem outdent_width_previous_stop input config :
  0 < tabSize config ->
  (Z.of_nat (length (value input)) < 2 ^ 31)%Z ->
  let v := value input in
  let line_start := getLineStart v (selectionStart input) in
  let line_end := getLineEnd v (selectionEnd input) in
  exists input' replacement,
    outdent input config = Ok input' /\
    value input'
    = firstn line_start v ++ replacement
      ++ skipn (Nat.max line_start line_end) v /\
    Forall2 (fun l l' =>
               let w := countLeadingSpaces l 0 (tabSize config) in
               let w' := countLeadingSpaces l' 0 (tabSize config) in
               w' = (w / tabSize config - 1) * tabSize config /\
               w' <= w /\
               w - w' < 2 * tabSize config /\
               (w mod tabSize config = 0 -> w - w' <= tabSize config))
            (js_lines (slice v line_start line_end)) (js_lines replacement).
Proof.
  intros HT Hlen v line_start line_end.
  destruct (outdent_lines input config)
    as [input' [replacement [Hout [_ [_ [_ [Hval HF]]]]]]].
  exists input', replacement.
  split; [exact Hout|]. split; [exact Hval|].
  eapply Forall2_impl; [|exact HF].
  intros l l' [r [-> [Hb [_ Hw]]]]. cbv zeta.
  rewrite width_after_rewrite by assumption.
  rewrite (Hw HT Hlen), countLeadingSpaces_0.
  split; [reflexivity|]. now apply previous_stop_bounds.
Qed.

Lemma outdent_width_previous_stop_witness :
  exists input' replacement,
    outdent seven_spaces_x spaces4 = Ok input' /\
    value input'
    = firstn (getLineStart (value seven_spaces_x) 0) (value seven_spaces_x)
      ++ replacement
      ++ skipn (Nat.max (getLineStart (value seven_spaces_x) 0)
                        (getLineEnd (value seven_spaces_x) 0))
               (value seven_spaces_x) /\
    Forall2 (fun l l' =>
               let w := countLeadingSpaces l 0 4 in
               let w' := countLeadingSpaces l' 0 4 in
               w' = (w / 4 - 1) * 4 /\
               w' <= w /\
               w - w' < 2 * 4 /\
               (w mod 4 = 0 -> w - w' <= 4))
            (js_lines (slice (value seven_spaces_x)
                         (getLineStart (value seven_spaces_x) 0)
                         (getLineEnd (value seven_spaces_x) 0)))
            (js_lines replacement).
Proof.
  apply (outdent_width_previous_stop seven_spaces_x spaces4).
  - vm_compute; lia.
  - reflexivity.
Defined.

(** C2, as stated: a line indented by seven spaces loses all seven with
    tabSize 4, more than one tab width. *)
Lemma outdent_removes_more_than_one_stop :
  outdent seven_spaces_x spaces4
  = Ok {| value := js "x";
          selectionStart := 0;
          selectionEnd := 0;
          effects := [RangeRewrite (js "x") 0 8 Preserve; InputEvent] |}
  /\ countLeadingSpaces (value seven_spaces_x) 0 4 = 7
  /\ countLeadingSpaces (js "x") 0 4 = 0
  /\ ~ (countLeadingSpaces (value seven_spaces_x) 0 4
        - countLeadingSpaces (js "x") 0 4 <= 4).
Proof.
  repeat split; try reflexivity. vm_compute. lia.
Qed.

Lemma Forall_Forall2_eq (P : list N -> Prop) (R : list N -> list N -> Prop)
  (ls ls' : list (list N)) :
  (forall l l', P l -> R l l' -> l' = l) ->
  Forall P ls -> Forall2 R ls ls' -> ls' = ls.
Proof.
  intros H HP HF. induction HF as [|l l' ls ls' HR HF IH].
  - reflexivity.
  - inversion HP; subst. f_equal; auto.
Qed.

(** C8, as amended.  When every line of the range has zero
    leading-whitespace width, [outdent] returns the control as it was: no
    rewrite, no event.  The lines are those of the pattern [/^[ \t]*/gm]:
    a line starts at the start of the range and behind every newline,
    carriage return, U+2028 and U+2029.  The tab size is positive. *)
Theorem outdent_zero_indent_noop input config :
  0 < tabSize config ->
  Forall (fun l => countLeadingSpaces l 0 (tabSize config) = 0)
         (js_lines (slice (value input)
                      (getLineStart (value input) (selectionStart input))
                      (getLineEnd (value input) (selectionEnd input)))) ->
  outdent input config = Ok input.
Proof.
  intros HT Hzero.
  destruct (outdent_lines input config)
    as [input' [replacement [Hout [_ [Hsame [_ [_ HF]]]]]]].
  rewrite Hout. f_equal. apply Hsame.
  rewrite <- (concat_js_lines replacement).
  rewrite <- (concat_js_lines (slice _ _ _)). f_equal.
  eapply Forall_Forall2_eq; [|exact Hzero|exact HF].
  intros l l' Hw [r [-> [_ [Hn _]]]]. cbv beta in Hw.
  rewrite countLeadingSpaces_0 in Hw.
  pose proof (countBlanks_zero l _ HT Hw) as Hrun.
  rewrite (Hn Hrun). simpl.
  rewrite <- (take_drop_while is_blank l) at 2.
  unfold leading_run in Hrun. rewrite Hrun. reflexivity.
Qed.

Lemma outdent_zero_indent_noop_witness :
  outdent x_y_unindented spaces4 = Ok x_y_unindented.
Proof.
  apply (outdent_zero_indent_noop x_y_unindented spaces4).
  - vm_compute; lia.
  - vm_compute. repeat constructor.
Defined.

(** C8, as stated, with the lines cut at newlines only: the buffer
    ["a"], U+2028, two spaces, ["b"] is one such line, of leading width 0,
    yet [outdent] with the caret at 0 removes the two spaces behind U+2028
    by one rewrite and dispatches one event. *)
Lemma outdent_zero_indent_line_separator :
  spec_lines (slice (value line_separator_indented)
                (getLineStart (value line_separator_indented)
                   (selectionStart line_separator_indented))
                (getLineEnd (value line_separator_indented)
                   (selectionEnd line_separator_indented)))
  = [js "a" ++ [LS] ++ js "  b"]
  /\ countLeadingSpaces (js "a" ++ [LS] ++ js "  b") 0 (tabSize spaces4) = 0
  /\ outdent line_separator_indented spaces4
     = Ok {| value := js "a" ++ [LS] ++ js "b";
             selectionStart := 0;
             selectionEnd := 0;
             effects := [RangeRewrite (js "a" ++ [LS] ++ js "b") 0 5 Preserve;
                         InputEvent] |}
  /\ ~ (forall input config,
          0 < tabSize config ->
          Forall (fun l => countLeadingSpaces l 0 (tabSize config) = 0)
                 (spec_lines
                    (slice (value input)
                       (getLineStart (value input) (selectionStart input))
                       (getLineEnd (value input) (selectionEnd input)))) ->
          outdent input config = Ok input).
Proof.
  repeat split; try reflexivity.
  intros H.
  specialize (H line_separator_indented spaces4).
  assert (E : outdent line_separator_indented spaces4
              = Ok line_separator_indented).
  { apply H; [vm_compute; lia|]. vm_compute. repeat constructor. }
  vm_compute in E. discriminate E.
Qed.

Lemma app_neq_self (A : Type) (l : list A) (x y : A) : l <> l ++ [x; y].
Proof.
  intros H. apply (f_equal (@length A)) in H.
  rewrite length_app in H. simpl in H. lia.
Qed.

(** C6.  [outdent] rebuilds the text of the line range; when the rebuilt
    text equals the slice it returns the control untouched (no rewrite, no
    event), and otherwise it replaces the whole range by one rewrite and
    dispatches one event.  It is a no-op exactly in the first case. *)
Theorem outdent_noop_iff_unchanged input config :
  let v := value input in
  let line_start := getLineStart v (selectionStart input) in
  let line_end := getLineEnd v (selectionEnd input) in
  exists replacement,
    replaceAll_leading (outdentReplacer config) (slice v line_start line_end)
    = Ok replacement /\
    (replacement = slice v line_start line_end ->
     outdent input config = Ok input) /\
    (replacement <> slice v line_start line_end ->
     exists input',
       outdent input config = Ok input' /\
       value input' = firstn line_start v ++ replacement ++ skipn line_end v /\
       effects input'
       = effects input
         ++ [RangeRewrite replacement line_start line_end Preserve; InputEvent]) /\
    (outdent input config = Ok input <->
     replacement = slice v line_start line_end).
Proof.
  intros v line_start line_end.
  destruct (outdent_lines input config)
    as [input' [replacement [Hout [Hrep [Hsame [Hdiff _]]]]]].
  fold v in Hrep, Hsame, Hdiff. fold line_start in Hrep, Hsame, Hdiff.
  fold line_end in Hrep, Hsame, Hdiff.
  assert (Hrw : replacement <> slice v line_start line_end ->
                value input'
                = firstn line_start v ++ replacement ++ skipn line_end v /\
                effects input'
                = effects input
                  ++ [RangeRewrite replacement line_start line_end Preserve;
                      InputEvent]).
  { intros Hne. destruct (Hdiff Hne) as [Hle [input1 [Hset ->]]].
    destruct (setRangeText_ok replacement line_start line_end Preserve input Hle)
      as [input2 [Hset2 [Hval Heff]]].
    rewrite Hset in Hset2. injection Hset2 as <-.
    cbn [dispatchInputEvent value effects].
    rewrite Hval, Heff, <- app_assoc. split; reflexivity. }
  exists replacement.
  split; [exact Hrep|]. split; [|split].
  - intros E. rewrite Hout. f_equal. now apply Hsame.
  - intros Hne. exists input'. split; [exact Hout|]. now apply Hrw.
  - split.
    + intros H.
      destruct (list_eq_dec N.eq_dec replacement (slice v line_start line_end))
        as [E|Hne]; [exact E|exfalso].
      destruct (Hrw Hne) as [_ Heff].
      rewrite Hout in H. injection H as ->.
      now apply app_neq_self in Heff.
    + intros E. rewrite Hout. f_equal. now apply Hsame.
Qed.

Lemma char_is_true v i c : char_is v i c = true <-> nth_error v i = Some c.
Proof.
  unfold char_is. destruct (nth_error v i) as [x|].
  - rewrite N.eqb_eq. split; congruence.
  - split; discriminate.
Qed.

(** C9.  With the caret right after a newline, [getLineStart] is the caret,
    [getLineEnd] is the offset of that newline, the range is empty and
    [outdent] returns the control as it was, whatever the line holds. *)
Theorem outdent_caret_after_newline_noop input config :
  selectionStart input = selectionEnd input ->
  0 < selectionStart input ->
  nth_error (value input) (selectionStart input - 1) = Some LF ->
  getLineStart (value input) (selectionStart input) = selectionStart input /\
  getLineEnd (value input) (selectionEnd input) = selectionEnd input - 1 /\
  slice (value input) (getLineStart (value input) (selectionStart input))
        (getLineEnd (value input) (selectionEnd input)) = [] /\
  outdent input config = Ok input.
Proof.
  intros Hcaret Hpos Hnl. rewrite <- Hcaret.
  apply char_is_true in Hnl.
  destruct (selectionStart input) as [|i] eqn:Es; [lia|].
  simpl in Hnl. rewrite Nat.sub_0_r in Hnl.
  assert (Hls : getLineStart (value input) (S i) = S i).
  { simpl. now rewrite Hnl. }
  assert (Hle : getLineEnd (value input) (S i) = S i - 1).
  { unfold getLineEnd. simpl. rewrite Nat.sub_0_r, Hnl. reflexivity. }
  split; [exact Hls|]. split; [exact Hle|]. split.
  - rewrite Hls, Hle. apply slice_empty. lia.
  - destruct (outdent_lines input config)
      as [input' [replacement [Hout [_ [Hsame [Hdiff _]]]]]].
    rewrite <- Hcaret, Es, Hls, Hle in Hsame, Hdiff.
    rewrite Hout. f_equal. apply Hsame.
    destruct (list_eq_dec N.eq_dec replacement
                (slice (value input) (S i) (S i - 1))) as [E|Hne];
      [exact E|].
    destruct (Hdiff Hne) as [Hbad _]. lia.
Qed.

Lemma outdent_caret_after_newline_noop_witness :
  getLineStart (value caret_at_second_line) 2 = 2 /\
  getLineEnd (value caret_at_second_line) 2 = 2 - 1 /\
  slice (value caret_at_second_line)
        (getLineStart (value caret_at_second_line) 2)
        (getLineEnd (value caret_at_second_line) 2) = [] /\
  outdent caret_at_second_line spaces4 = Ok caret_at_second_line.
Proof.
  apply (outdent_caret_after_newline_noop caret_at_second_line spaces4).
  - reflexivity.
  - vm_compute; lia.
  - reflexivity.
Defined.

Lemma isMultiLineFrom_spec v n : forall i,
  isMultiLineFrom v i n = true <->
  exists j, i <= j < i + n /\ nth_error v j = Some LF.
Proof.
  induction n as [|n IH]; intros i; simpl.
  - split; [discriminate|]. intros [j [Hj _]]. lia.
  - destruct (char_is v i LF) eqn:E.
    + split; [|reflexivity]. intros _. exists i. split; [lia|].
      now apply char_is_true.
    + rewrite IH. split.
      * intros [j [Hj Hc]]. exists j. split; [lia|exact Hc].
      * intros [j [Hj Hc]]. exists j. split; [|exact Hc].
        destruct (Nat.eq_dec j i) as [->|Hne]; [|lia].
        apply char_is_true in Hc. congruence.
Qed.

Lemma isMultiLine_spec v a b :
  isMultiLine v a b = true <->
  exists i, a <= i < b /\ nth_error v i = Some LF.
Proof.
  unfold isMultiLine. rewrite isMultiLineFrom_spec. split.
  - intros [j [Hj Hc]]. exists j. split; [lia|exact Hc].
  - intros [j [Hj Hc]]. exists j. split; [lia|exact Hc].
Qed.

(** The test of [indent], as a statement about the buffer. *)
Lemma indentBlockMode_spec input :
  let v := value input in
  let start := selectionStart input in
  let end_ := selectionEnd input in
  indentBlockMode input = true <->
  (start <> end_ /\
   (start = 0 \/ nth_error v (start - 1) = Some LF) /\
   (end_ = length v \/ nth_error v end_ = Some LF \/ nth_error v end_ = Some CR))
  \/ (exists i, start <= i < end_ /\ nth_error v i = Some LF).
Proof.
  intros v start end_.
  unfold indentBlockMode. fold v. fold start. fold end_.
  rewrite orb_true_iff, !andb_true_iff, !orb_true_iff.
  rewrite negb_true_iff, !Nat.eqb_eq, Nat.eqb_neq.
  rewrite !char_is_true, isMultiLine_spec.
  split; intros [H|H]; try (right; exact H); left.
  - destruct H as [[H1 H2] H3]. repeat split; try assumption.
    destruct H3 as [[H3|H3]|H3]; auto.
  - destruct H as [H1 [H2 H3]]. repeat split; try assumption.
    destruct H3 as [H3|[H3|H3]]; auto.
Qed.

Lemma indentBlockMode_caret input :
  selectionStart input = selectionEnd input -> indentBlockMode input = false.
Proof.
  intros Heq. destruct (indentBlockMode input) eqn:E; [|reflexivity].
  apply indentBlockMode_spec in E.
  destruct E as [[Hne _]|[i [Hi _]]]; [contradiction|lia].
Qed.

(** C7, as amended.  [indent] takes its block branch exactly when the
    selection is non-empty with its start at a line start and its end at a
    line end, or some offset [i] with [start <= i < end] holds a newline;
    every other selection, and every empty one, takes the caret branch. *)
Theorem indent_block_mode_iff input config :
  let v := value input in
  let start := selectionStart input in
  let end_ := selectionEnd input in
  (indentBlockMode input = true <->
   (start <> end_ /\
    (start = 0 \/ nth_error v (start - 1) = Some LF) /\
    (end_ = length v \/ nth_error v end_ = Some LF \/ nth_error v end_ = Some CR))
   \/ (exists i, start <= i < end_ /\ nth_error v i = Some LF))
  /\ indent input config
     = (if indentBlockMode input then indentBlock input config
        else indentCaret input config)
  /\ (start = end_ -> indentBlockMode input = false).
Proof.
  intros v start end_.
  split; [apply indentBlockMode_spec|].
  split; [apply indent_branches|apply indentBlockMode_caret].
Qed.

(** C7, as stated: with ["\nb"] selected in ["a\nbc"], the selection does
    not start at a line start and no offset strictly between 1 and 3 holds
    a newline, yet [indent] takes the block branch and rewrites both
    lines. *)
Lemma indent_block_mode_newline_at_start :
  indentBlockMode newline_first_selected = true /\
  indent newline_first_selected spaces4
  = Ok {| value := js "    a" ++ [LF] ++ js "    bc";
          selectionStart := 0;
          selectionEnd := 12;
          effects := [RangeRewrite (js "    a" ++ [LF] ++ js "    bc") 0 4 Preserve;
                      InputEvent] |} /\
  ~ ((1 <> 3 /\
      (1 = 0 \/ nth_error (value newline_first_selected) (1 - 1) = Some LF) /\
      (3 = length (value newline_first_selected)
       \/ nth_error (value newline_first_selected) 3 = Some LF
       \/ nth_error (value newline_first_selected) 3 = Some CR))
     \/ (exists i, 1 < i < 3 /\
                   nth_error (value newline_first_selected) i = Some LF)).
Proof.
  split; [reflexivity|]. split; [reflexivity|].
  intros [[_ [[H|H] _]]|[i [Hi H]]].
  - discriminate H.
  - discriminate H.
  - assert (i = 2) by lia. subst i. discriminate H.
Qed.

Lemma caretPadding_nat T start line_start :
  caretPadding T start line_start
  = Z.of_nat (T - (start - line_start) mod T).
Proof.
  unfold caretPadding. destruct (Nat.eqb_spec T 0) as [->|HT].
  - reflexivity.
  - pose proof (Nat.mod_upper_bound (start - line_start) T HT). lia.
Qed.

Lemma setRangeText_End replacement start end_ input :
  start <= end_ -> end_ <= length (value input) ->
  setRangeText replacement start end_ End_ input
  = Ok {| value := firstn start (value input) ++ replacement
                   ++ skipn end_ (value input);
          selectionStart := start + length replacement;
          selectionEnd := start + length replacement;
          effects := effects input ++ [RangeRewrite replacement start end_ End_] |}.
Proof.
  intros H1 H2. unfold setRangeText.
  destruct (Nat.ltb_spec end_ start); [lia|].
  cbv zeta. cbv beta iota.
  rewrite firstn_min_length, skipn_min_length.
  rewrite (Nat.min_l start) by lia.
  assert (Hlen : start + length replacement
                 <= length (firstn start (value input) ++ replacement
                            ++ skipn end_ (value input))).
  { rewrite !length_app, length_firstn. lia. }
  rewrite (Nat.min_l _ _ Hlen), Nat.min_id. reflexivity.
Qed.

(** The caret branch: the selection is replaced and the caret is put
    behind the inserted text. *)
Lemma indentCaret_result input config :
  selection_ok input ->
  let v := value input in
  let start := selectionStart input in
  let end_ := selectionEnd input in
  let padding := tabSize config - (start - getLineStart v start) mod tabSize config in
  let replacement := if insertSpaces config then repeat SPACE padding else [TAB] in
  indentCaret input config
  = Ok {| value := firstn start v ++ replacement ++ skipn end_ v;
          selectionStart := start + length replacement;
          selectionEnd := start + length replacement;
          effects := effects input
                     ++ [RangeRewrite replacement start end_ End_; InputEvent] |}.
Proof.
  intros [Hse Hel] v start end_ padding replacement.
  unfold indentCaret. fold v. fold start. fold end_.
  rewrite caretPadding_nat, js_repeat_of_nat. fold padding.
  assert (E : (if insertSpaces config then Ok (repeat SPACE padding)
               else Ok [TAB]) = Ok replacement).
  { unfold replacement. destruct (insertSpaces config); reflexivity. }
  rewrite E. cbn [bind].
  rewrite setRangeText_End by assumption. cbn [bind].
  unfold dispatchInputEvent. cbn [value selectionStart selectionEnd effects].
  rewrite <- app_assoc. reflexivity.
Qed.

(** C4.  In caret mode, [indent] replaces the selection by
    [tabSize - (start - line_start) mod tabSize] spaces when insertSpaces
    is set and by one tab otherwise, and leaves an empty selection right
    after the inserted text. *)
Theorem indent_caret_mode input config :
  selection_ok input ->
  indentBlockMode input = false ->
  let v := value input in
  let start := selectionStart input in
  let end_ := selectionEnd input in
  let padding := tabSize config - (start - getLineStart v start) mod tabSize config in
  let replacement := if insertSpaces config then repeat SPACE padding else [TAB] in
  indent input config
  = Ok {| value := firstn start v ++ replacement ++ skipn end_ v;
          selectionStart := start + length replacement;
          selectionEnd := start + length replacement;
          effects := effects input
                     ++ [RangeRewrite replacement start end_ End_; InputEvent] |}
  /\ selectionStart input <= start + length replacement
  /\ (insertSpaces config = true -> 0 < tabSize config ->
      1 <= length replacement <= tabSize config /\
      (start - getLineStart v start + length replacement) mod tabSize config = 0).
Proof.
  intros Hsel Hmode v start end_ padding replacement.
  split; [|split].
  - rewrite indent_branches, Hmode. now apply indentCaret_result.
  - fold start. lia.
  - intros Hsp HT. unfold replacement. rewrite Hsp, repeat_length.
    unfold padding.
    set (col := start - getLineStart v start).
    pose proof (Nat.mod_upper_bound col (tabSize config) ltac:(lia)) as Hm.
    pose proof (Nat.div_mod_eq col (tabSize config)) as Hd.
    split; [lia|].
    replace (col + (tabSize config - col mod tabSize config))
      with ((col / tabSize config + 1) * tabSize config).
    + apply Nat.Div0.mod_mul.
    + rewrite Nat.mul_add_distr_r, Nat.mul_1_l,
        (Nat.mul_comm (col / tabSize config)). lia.
Qed.

Lemma indent_caret_mode_witness :
  indent ab_caret_middle spaces4
  = Ok {| value := js "a   b";
          selectionStart := 4;
          selectionEnd := 4;
          effects := [RangeRewrite (js "   ") 1 1 End_; InputEvent] |}
  /\ 1 <= 4
  /\ (true = true -> 0 < 4 -> 1 <= 3 <= 4 /\ (1 - 0 + 3) mod 4 = 0).
Proof.
  apply (indent_caret_mode ab_caret_middle spaces4).
  - split; vm_compute; lia.
  - reflexivity.
Defined.

(* ================================================================== *)
(** * Indenting at the caret, then outdenting *)
(* ================================================================== *)

Lemma blank_not_LF b : is_blank b = true -> N.eqb b LF = false.
Proof.
  intros H. apply blank_not_terminator in H.
  unfold is_line_terminator in H.
  apply orb_false_iff in H. destruct H as [H _].
  apply orb_false_iff in H. destruct H as [H _].
  apply orb_false_iff in H. now destruct H as [H _].
Qed.

Lemma getLineStart_prefix X Z i :
  i <= length X -> getLineStart (X ++ Z) i = getLineStart X i.
Proof.
  induction i as [|i IH]; intros Hi; simpl; [reflexivity|].
  unfold char_is. rewrite nth_error_app1 by lia.
  rewrite IH by lia. reflexivity.
Qed.

Lemma getLineStart_over_blanks X B :
  forallb is_blank B = true ->
  getLineStart (X ++ B) (length X + length B) = getLineStart X (length X).
Proof.
  induction B as [|b B IH] using rev_ind; intros HB.
  - rewrite app_nil_r, Nat.add_0_r. reflexivity.
  - rewrite forallb_app in HB. apply andb_true_iff in HB.
    destruct HB as [HB Hb]. simpl in Hb. rewrite andb_true_r in Hb.
    rewrite length_app. simpl length.
    replace (length X + (length B + 1)) with (S (length (X ++ B)))
      by (rewrite length_app; lia).
    rewrite app_assoc. cbn [getLineStart].
    unfold char_is at 1. rewrite nth_error_length_app.
    rewrite (blank_not_LF b Hb).
    rewrite getLineStart_prefix by lia.
    rewrite length_app. now apply IH.
Qed.

Lemma scanLineEnd_split rest i :
  exists S1 S2,
    rest = S1 ++ S2 /\
    scanLineEnd rest i = i + length S1 /\
    match S2 with [] => True | c :: _ => is_blank c = false end.
Proof.
  revert i. induction rest as [|c rest IH]; intros i.
  - exists [], []. simpl. repeat split. lia.
  - simpl. destruct (N.eqb c LF || N.eqb c CR) eqn:E.
    + exists [], (c :: rest). simpl. repeat split; [lia|].
      apply terminator_not_blank. unfold is_line_terminator.
      rewrite E. reflexivity.
    + destruct (IH (S i)) as [S1 [S2 [-> [Hs H2]]]].
      exists (c :: S1), S2. simpl. repeat split; [lia|exact H2].
Qed.

Lemma getLineEnd_scan v i :
  char_is v (i - 1) LF = false ->
  getLineEnd v i = scanLineEnd (skipn i v) i.
Proof.
  intros H. unfold getLineEnd. rewrite H, andb_false_r. reflexivity.
Qed.

Lemma countBlanks_app_blank B X T :
  forallb is_blank B = true ->
  countBlanks (B ++ X) T = countBlanks B T + countBlanks X T.
Proof.
  induction B as [|b B IH]; intros HB; simpl in *; [reflexivity|].
  apply andb_true_iff in HB. destruct HB as [Hb HB].
  unfold is_blank in Hb.
  destruct (N.eqb b SPACE); [rewrite IH by assumption; lia|].
  destruct (N.eqb b TAB); [rewrite IH by assumption; lia|discriminate].
Qed.

Lemma countBlanks_app_stop X Y T :
  match Y with [] => True | c :: _ => is_blank c = false end ->
  countBlanks (X ++ Y) T = countBlanks X T.
Proof.
  intros HY. induction X as [|x X IH]; simpl.
  - destruct Y as [|c Y]; [reflexivity|]. simpl.
    unfold is_blank in HY. apply orb_false_iff in HY.
    destruct HY as [-> ->]. reflexivity.
  - now rewrite IH.
Qed.

Lemma countBlanks_first_line s T :
  countBlanks (hd [] (js_lines s)) T = countBlanks s T.
Proof.
  induction s as [|c s IH]; simpl; [reflexivity|].
  destruct (is_line_terminator c) eqn:Et.
  - simpl. apply terminator_not_blank in Et.
    unfold is_blank in Et. apply orb_false_iff in Et.
    destruct Et as [-> ->]. reflexivity.
  - pose proof (js_lines_ok s) as Hok.
    destruct (js_lines s) as [|l ls]; [inversion Hok|].
    simpl in *. now rewrite IH.
Qed.

Lemma aligned_previous_stop w T :
  0 < T -> w mod T = 0 -> ((w + T) / T - 1) * T = w.
Proof.
  intros HT Hm.
  replace (w + T) with (w + 1 * T) by lia.
  rewrite Nat.div_add by lia.
  pose proof (Nat.div_mod_eq w T) as Hd.
  replace (w / T + 1 - 1) with (w / T) by lia.
  rewrite Nat.mul_comm. lia.
Qed.

Lemma getLineStart_idem v i :
  getLineStart v (getLineStart v i) = getLineStart v i.
Proof.
  induction i as [|i IH]; simpl; [reflexivity|].
  destruct (char_is v i LF) eqn:E; [|exact IH].
  simpl. now rewrite E.
Qed.

(** C3, as amended.  Take a caret on a line whose leading-whitespace width
    is a multiple of tabSize, with the caret inside the leading run of the
    line and, when spaces are inserted, at a column that is a multiple of
    tabSize.  Then [indent] followed by [outdent] at the resulting caret
    leaves the buffer before the line as it was and restores the
    leading-whitespace width of the line. *)
Theorem indent_outdent_round_trip input config :
  let v := value input in
  let caret := selectionStart input in
  let T := tabSize config in
  let line_start := getLineStart v caret in
  let w := countLeadingSpaces v line_start T in
  selectionStart input = selectionEnd input ->
  caret <= length v ->
  0 < T ->
  (Z.of_nat (length v) + Z.of_nat T < 2 ^ 31)%Z ->
  w mod T = 0 ->
  forallb is_blank (slice v line_start caret) = true ->
  (insertSpaces config = true -> (caret - line_start) mod T = 0) ->
  exists input1 input2,
    indent input config = Ok input1 /\
    outdent input1 config = Ok input2 /\
    firstn line_start (value input2) = firstn line_start v /\
    getLineStart (value input2) line_start = line_start /\
    countLeadingSpaces (value input2) line_start T = w.
Proof.
  intros v c T ls w Hcaret Hc HT Hlen Hw Hlead Hcol.
  assert (Hls : ls <= c) by apply getLineStart_le.
  set (A := slice v ls c) in *.
  set (P := firstn ls v).
  set (R := skipn c v).
  assert (HlenA : length A = c - ls).
  { unfold A, slice. rewrite length_firstn, length_skipn. lia. }
  assert (HlenP : length P = ls).
  { unfold P. rewrite length_firstn. lia. }
  assert (Hv : v = P ++ A ++ R).
  { unfold P, A, R. rewrite (value_split v ls c) at 1.
    fold A. rewrite HlenA. repeat f_equal. lia. }
  assert (HlenPA : length (P ++ A) = c).
  { rewrite length_app. lia. }
  assert (HPA : firstn c v = P ++ A).
  { rewrite Hv at 1. rewrite app_assoc, <- HlenPA. apply firstn_length_app. }
  (* the inserted text *)
  set (padding := T - (c - ls) mod T).
  set (rep := if insertSpaces config then repeat SPACE padding else [TAB]).
  assert (Hrep : forallb is_blank rep = true /\ countBlanks rep T = T /\
                 1 <= length rep <= T).
  { unfold rep. destruct (insertSpaces config).
    - unfold padding. rewrite (Hcol eq_refl), Nat.sub_0_r.
      rewrite countBlanks_repeat_space, repeat_length.
      split; [apply forallb_blank_repeat; reflexivity|lia].
    - simpl. split; [reflexivity|lia]. }
  destruct Hrep as [Hrb [Hrw Hrl]].
  (* the caret branch of [indent] *)
  pose proof (indentCaret_result input config) as Hind.
  cbv zeta in Hind. fold v in Hind. fold c in Hind. rewrite <- Hcaret in Hind.
  fold c in Hind. fold ls in Hind. fold T in Hind. fold padding in Hind.
  fold rep in Hind. fold R in Hind. rewrite HPA in Hind.
  assert (Hsel : selection_ok input).
  { split; [rewrite <- Hcaret; apply Nat.le_refl|rewrite <- Hcaret; exact Hc]. }
  specialize (Hind Hsel).
  pose proof (indent_branches input config) as Hbr.
  rewrite (indentBlockMode_caret input Hcaret) in Hbr.
  rewrite <- Hbr in Hind. clear Hbr.
  set (input1 := {| value := (P ++ A) ++ rep ++ R;
                    selectionStart := c + length rep;
                    selectionEnd := c + length rep;
                    effects := effects input
                               ++ [RangeRewrite rep c c End_; InputEvent] |})
    in Hind.
  (* the line of the caret in the new buffer *)
  destruct (scanLineEnd_split R (c + length rep)) as [S1 [S2 [HR [Hscan HS2]]]].
  assert (Hls1 : getLineStart (value input1) (selectionStart input1) = ls).
  { cbn [input1 value selectionStart].
    rewrite app_assoc, <- HlenPA, <- length_app.
    rewrite (getLineStart_prefix ((P ++ A) ++ rep) R) by apply Nat.le_refl.
    rewrite length_app, getLineStart_over_blanks by assumption.
    rewrite <- (getLineStart_prefix (P ++ A) R) by apply Nat.le_refl.
    rewrite <- app_assoc, <- Hv, HlenPA. reflexivity. }
  assert (Hle1 : getLineEnd (value input1) (selectionEnd input1)
                 = c + length rep + length S1).
  { cbn [input1 value selectionEnd].
    rewrite getLineEnd_scan.
    - rewrite app_assoc, <- HlenPA, <- length_app, skipn_length_app.
      rewrite length_app, HlenPA. exact Hscan.
    - assert (Hne : rep <> []) by (intros E; rewrite E in Hrl; simpl in Hrl; lia).
      destruct (exists_last Hne) as [rep' [b Hb]].
      rewrite Hb in Hrb |- *.
      rewrite forallb_app in Hrb. apply andb_true_iff in Hrb.
      destruct Hrb as [_ Hbb]. simpl in Hbb. rewrite andb_true_r in Hbb.
      replace ((P ++ A) ++ (rep' ++ [b]) ++ R)
        with (((P ++ A) ++ rep') ++ b :: R)
        by (rewrite <- !app_assoc; reflexivity).
      replace (c + length (rep' ++ [b]) - 1) with (length ((P ++ A) ++ rep'))
        by (rewrite !length_app in *; simpl; lia).
      unfold char_is. rewrite nth_error_length_app.
      now apply blank_not_LF. }
  assert (Hv1 : value input1 = P ++ (A ++ rep ++ S1) ++ S2).
  { cbn [input1 value]. rewrite HR, <- !app_assoc. reflexivity. }
  assert (Hle1' : c + length rep + length S1
                  = length P + length (A ++ rep ++ S1)).
  { rewrite !length_app. lia. }
  assert (Hslice : slice (value input1) ls (c + length rep + length S1)
                   = A ++ rep ++ S1).
  { rewrite Hv1, Hle1', <- HlenP. apply slice_app_mid. }
  (* [outdent] on that line *)
  destruct (outdent_lines input1 config)
    as [input2 [replacement [Hout [_ [_ [_ [Hval HF]]]]]]].
  rewrite Hls1, Hle1, Hslice in HF. rewrite Hls1, Hle1 in Hval.
  exists input1, input2.
  split; [exact Hind|]. split; [exact Hout|].
  assert (Hval2 : value input2 = P ++ replacement ++ S2).
  { rewrite Hval. rewrite Nat.max_r by lia.
    rewrite Hv1 at 1. rewrite <- HlenP at 1. rewrite firstn_length_app.
    do 2 f_equal.
    replace (value input1) with ((P ++ (A ++ rep ++ S1)) ++ S2)
      by (rewrite Hv1, <- app_assoc; reflexivity).
    replace (c + length rep + length S1)
      with (length (P ++ (A ++ rep ++ S1)))
      by (rewrite (length_app P); lia).
    apply skipn_length_app. }
  split.
  { rewrite Hval2, <- HlenP. apply firstn_length_app. }
  split.
  { rewrite Hval2.
    rewrite (getLineStart_prefix P (replacement ++ S2)) by lia.
    rewrite <- (getLineStart_prefix P (A ++ R)) by lia.
    rewrite <- Hv. apply getLineStart_idem. }
  (* widths *)
  assert (Hw0 : w = countBlanks A T + countBlanks S1 T).
  { unfold w, countLeadingSpaces. rewrite Hv at 1.
    rewrite <- HlenP at 1. rewrite skipn_length_app.
    rewrite countBlanks_app_blank by assumption.
    rewrite HR. now rewrite countBlanks_app_stop. }
  assert (Hw1 : countBlanks (A ++ rep ++ S1) T = w + T).
  { rewrite !countBlanks_app_blank by assumption. lia. }
  pose proof (js_lines_ok (A ++ rep ++ S1)) as Hok.
  pose proof (countBlanks_first_line (A ++ rep ++ S1) T) as Hfirst.
  pose proof (countBlanks_first_line replacement T) as Hfirst'.
  destruct (js_lines (A ++ rep ++ S1)) as [|l0 rest]; [inversion Hok|].
  inversion HF as [|? l0' ? rest' [r [El [Hb [_ Hwidth]]]] HF' E1 E2].
  rewrite <- E2 in Hfirst'. simpl in Hfirst, Hfirst'.
  unfold countLeadingSpaces.
  rewrite Hval2. rewrite <- HlenP at 1. rewrite skipn_length_app.
  rewrite countBlanks_app_stop by assumption.
  rewrite <- Hfirst', El.
  rewrite <- countLeadingSpaces_0, width_after_rewrite by assumption.
  fold T in Hwidth. rewrite Hwidth.
  - rewrite Hfirst, Hw1. now apply aligned_previous_stop.
  - exact HT.
  - cbn [input1 value]. rewrite !length_app.
    rewrite Hv, !length_app in Hlen. lia.
Qed.

Lemma indent_outdent_round_trip_witness :
  exists input1 input2,
    indent indented_x_caret_start spaces4 = Ok input1 /\
    outdent input1 spaces4 = Ok input2 /\
    firstn 0 (value input2) = firstn 0 (value indented_x_caret_start) /\
    getLineStart (value input2) 0 = 0 /\
    countLeadingSpaces (value input2) 0 4 = 4.
Proof.
  apply (indent_outdent_round_trip indented_x_caret_start spaces4).
  - reflexivity.
  - vm_compute; lia.
  - vm_compute; lia.
  - reflexivity.
  - reflexivity.
  - reflexivity.
  - reflexivity.
Defined.

(** C3, as stated: in the line of four spaces and ["x"], with the caret
    behind the ["x"], the leading width 4 is a multiple of tabSize 4;
    [indent] pads behind the ["x"] and [outdent] then strips the four
    leading spaces, so the width ends at 0. *)
Lemma round_trip_caret_after_text_loses_indent :
  selectionStart indented_x_caret_end = selectionEnd indented_x_caret_end /\
  countLeadingSpaces (value indented_x_caret_end)
    (getLineStart (value indented_x_caret_end) 5) 4 = 4 /\
  4 mod 4 = 0 /\
  indent indented_x_caret_end spaces4
  = Ok {| value := js "    x   ";
          selectionStart := 8;
          selectionEnd := 8;
          effects := [RangeRewrite (js "   ") 5 5 End_; InputEvent] |} /\
  outdent {| value := js "    x   ";
             selectionStart := 8;
             selectionEnd := 8;
             effects := [RangeRewrite (js "   ") 5 5 End_; InputEvent] |}
          spaces4
  = Ok {| value := js "x   ";
          selectionStart := 0;
          selectionEnd := 4;
          effects := [RangeRewrite (js "   ") 5 5 End_; InputEvent;
                      RangeRewrite (js "x   ") 0 8 Preserve; InputEvent] |} /\
  countLeadingSpaces (js "x   ") (getLineStart (js "x   ") 0) 4 = 0 /\
  countLeadingSpaces (js "x   ") (getLineStart (js "x   ") 0) 4 <> 4.
Proof.
  repeat split; try reflexivity. vm_compute. discriminate.
Qed.

(* ================================================================== *)
(** * More on the line utilities *)
(* ================================================================== *)

Import Hooks Scenarios.

(** X1.  [getLineStart] returns the nearest line start at or before the
    index: an offset that is 0 or just behind a newline, with no newline
    between it and the index. *)
Theorem getLineStart_nearest_line_start v i :
  getLineStart v i <= i /\
  (getLineStart v i = 0 \/ nth_error v (getLineStart v i - 1) = Some LF) /\
  (forall j, getLineStart v i <= j < i -> nth_error v j <> Some LF).
Proof.
  induction i as [|i [IH1 [IH2 IH3]]]; simpl.
  - split; [lia|]. split; [now left|]. intros j Hj. lia.
  - destruct (char_is v i LF) eqn:E.
    + split; [lia|]. split.
      * right. simpl. rewrite Nat.sub_0_r. now apply char_is_true.
      * intros j Hj. lia.
    + split; [lia|]. split; [exact IH2|].
      intros j Hj. destruct (Nat.eq_dec j i) as [->|Hne].
      * intros H. apply char_is_true in H. congruence.
      * apply IH3. lia.
Qed.

Lemma scanLineEnd_first_terminator rest : forall i,
  i <= scanLineEnd rest i <= i + length rest /\
  (scanLineEnd rest i < i + length rest ->
   nth_error rest (scanLineEnd rest i - i) = Some LF \/
   nth_error rest (scanLineEnd rest i - i) = Some CR) /\
  (forall k, k < scanLineEnd rest i - i ->
             nth_error rest k <> Some LF /\ nth_error rest k <> Some CR).
Proof.
  induction rest as [|c rest IH]; intros i; simpl.
  - split; [lia|]. split; [lia|]. intros k Hk. lia.
  - destruct (N.eqb c LF || N.eqb c CR) eqn:E.
    + split; [lia|]. split.
      * intros _. rewrite Nat.sub_diag. simpl.
        apply orb_true_iff in E. destruct E as [E|E];
          apply N.eqb_eq in E; subst; auto.
      * intros k Hk. lia.
    + destruct (IH (S i)) as [H1 [H2 H3]].
      apply orb_false_iff in E. destruct E as [E1 E2].
      apply N.eqb_neq in E1, E2.
      split; [lia|]. split.
      * intros Hlt.
        replace (scanLineEnd rest (S i) - i)
          with (S (scanLineEnd rest (S i) - S i)) by lia.
        simpl. apply H2. lia.
      * intros [|k] Hk; simpl.
        -- split; congruence.
        -- apply H3. lia.
Qed.

Lemma getLineEnd_after_newline v i :
  0 < i -> nth_error v (i - 1) = Some LF -> getLineEnd v i = i - 1.
Proof.
  intros Hi Hnl. unfold getLineEnd.
  apply char_is_true in Hnl. rewrite Hnl.
  destruct (Nat.ltb_spec 0 i); [reflexivity|lia].
Qed.

(** X2.  Right behind a newline [getLineEnd] steps back onto that newline.
    Anywhere else it returns the first offset at or behind the index that
    holds a newline or carriage return, or the end of the buffer. *)
Theorem getLineEnd_first_line_end v i :
  (0 < i -> nth_error v (i - 1) = Some LF -> getLineEnd v i = i - 1) /\
  (~ (0 < i /\ nth_error v (i - 1) = Some LF) ->
   i <= getLineEnd v i <= Nat.max i (length v) /\
   (getLineEnd v i < length v ->
    nth_error v (getLineEnd v i) = Some LF \/
    nth_error v (getLineEnd v i) = Some CR) /\
   (forall j, i <= j < getLineEnd v i ->
              nth_error v j <> Some LF /\ nth_error v j <> Some CR)).
Proof.
  split.
  - apply getLineEnd_after_newline.
  - intros Hno.
    assert (E : (0 <? i) && char_is v (i - 1) LF = false).
    { destruct (Nat.ltb_spec 0 i); [|reflexivity]. simpl.
      destruct (char_is v (i - 1) LF) eqn:Ec; [|reflexivity].
      exfalso. apply Hno. split; [assumption|now apply char_is_true]. }
    unfold getLineEnd. rewrite E.
    destruct (scanLineEnd_first_terminator (skipn i v) i) as [H1 [H2 H3]].
    rewrite length_skipn in H1, H2.
    split; [lia|]. split.
    + intros Hlt. specialize (H2 ltac:(lia)).
      rewrite !nth_error_skipn in H2.
      replace (i + (scanLineEnd (skipn i v) i - i))
        with (scanLineEnd (skipn i v) i) in H2 by lia.
      exact H2.
    + intros j Hj. specialize (H3 (j - i) ltac:(lia)).
      rewrite !nth_error_skipn in H3.
      replace (i + (j - i)) with j in H3 by lia.
      exact H3.
Qed.

Lemma getLineEnd_first_line_end_witness :
  nth_error (js "ab" ++ [CR; LF] ++ js "c")
    (getLineEnd (js "ab" ++ [CR; LF] ++ js "c") 1) = Some LF \/
  nth_error (js "ab" ++ [CR; LF] ++ js "c")
    (getLineEnd (js "ab" ++ [CR; LF] ++ js "c") 1) = Some CR.
Proof.
  destruct (getLineEnd_first_line_end (js "ab" ++ [CR; LF] ++ js "c") 1)
    as [_ H].
  destruct H as [_ [H _]].
  - intros [_ Hnl]. vm_compute in Hnl. discriminate Hnl.
  - apply H. vm_compute. lia.
Defined.

Lemma getLineEnd_le_length v i : i <= length v -> getLineEnd v i <= length v.
Proof.
  intros Hi. unfold getLineEnd.
  destruct (_ && _); [lia|].
  destruct (scanLineEnd_first_terminator (skipn i v) i) as [H _].
  rewrite length_skipn in H. lia.
Qed.

Lemma getLineEnd_before_index v i :
  getLineEnd v i < i ->
  0 < i /\ nth_error v (i - 1) = Some LF /\ getLineEnd v i = i - 1.
Proof.
  unfold getLineEnd. intros H.
  destruct (Nat.ltb_spec 0 i) as [Hpos|Hz]; simpl in *.
  - destruct (char_is v (i - 1) LF) eqn:E.
    + split; [assumption|]. split; [now apply char_is_true|reflexivity].
    + pose proof (scanLineEnd_ge (skipn i v) i). lia.
  - pose proof (scanLineEnd_ge (skipn i v) i). lia.
Qed.

Lemma getLineStart_after_newline v i :
  0 < i -> nth_error v (i - 1) = Some LF -> getLineStart v i = i.
Proof.
  intros Hi H. destruct i as [|i]; [lia|].
  simpl in *. rewrite Nat.sub_0_r in H.
  apply char_is_true in H. now rewrite H.
Qed.

(** X3.  The line range of a valid selection starts at or before the
    selection and lies inside the buffer.  It reaches the selection's end,
    except that a newline right before the end is left out.  The range is
    reversed (end before start) exactly for a caret right behind a
    newline. *)
Theorem line_range_of_selection input :
  selection_ok input ->
  let v := value input in
  let start := selectionStart input in
  let end_ := selectionEnd input in
  let line_start := getLineStart v start in
  let line_end := getLineEnd v end_ in
  line_start <= start /\
  line_end <= length v /\
  (end_ <= line_end \/
   (0 < end_ /\ line_end = end_ - 1 /\ nth_error v line_end = Some LF)) /\
  (line_end < line_start <->
   start = end_ /\ 0 < start /\ nth_error v (start - 1) = Some LF).
Proof.
  intros [Hse Hel] v start end_ line_start line_end.
  fold v in Hel. fold start in Hse. fold end_ in Hse, Hel.
  pose proof (getLineStart_le v start) as Hls.
  pose proof (getLineEnd_ge v end_) as Hle.
  fold line_start in Hls. fold line_end in Hle.
  split; [exact Hls|]. split; [now apply getLineEnd_le_length|]. split.
  - destruct (Nat.le_gt_cases end_ line_end) as [H|H]; [now left|right].
    destruct (getLineEnd_before_index v end_ H) as [H1 [H2 H3]].
    fold line_end in H3. rewrite H3. auto.
  - split.
    + intros Hrev.
      assert (Hlt : line_end < end_) by lia.
      destruct (getLineEnd_before_index v end_ Hlt) as [H1 [H2 H3]].
      fold line_end in H3.
      assert (Heq : start = end_) by (apply Nat.le_antisymm; lia).
      rewrite Heq. repeat split; assumption.
    + intros [Heq [Hpos Hnl]].
      unfold line_start, line_end. rewrite <- Heq.
      rewrite (getLineStart_after_newline v start Hpos Hnl).
      rewrite (getLineEnd_after_newline v start Hpos Hnl). lia.
Qed.

Lemma line_range_of_selection_witness :
  getLineEnd (value caret_at_second_line) (selectionEnd caret_at_second_line)
  < getLineStart (value caret_at_second_line)
      (selectionStart caret_at_second_line).
Proof.
  destruct (line_range_of_selection caret_at_second_line) as [_ [_ [_ H]]].
  - split; vm_compute; lia.
  - apply H. vm_compute. repeat split. lia.
Defined.

Lemma countBlanks_count_occ l T :
  countBlanks l T
  = count_occ N.eq_dec (leading_run l) SPACE
    + T * count_occ N.eq_dec (leading_run l) TAB.
Proof.
  unfold leading_run. induction l as [|c l IH]; [simpl; lia|].
  destruct (N.eqb_spec c SPACE) as [->|Hs].
  - change (countBlanks (SPACE :: l) T) with (1 + countBlanks l T).
    change (take_while is_blank (SPACE :: l))
      with (SPACE :: take_while is_blank l).
    rewrite count_occ_cons_eq by reflexivity.
    rewrite count_occ_cons_neq by discriminate. rewrite IH. lia.
  - destruct (N.eqb_spec c TAB) as [->|Ht].
    + change (countBlanks (TAB :: l) T) with (T + countBlanks l T).
      change (take_while is_blank (TAB :: l))
        with (TAB :: take_while is_blank l).
      rewrite count_occ_cons_neq by discriminate.
      rewrite count_occ_cons_eq by reflexivity. rewrite IH. lia.
    + apply N.eqb_neq in Hs, Ht. simpl. unfold is_blank.
      rewrite Hs, Ht. simpl. lia.
Qed.

(** X4.  [countLeadingSpaces] counts the run of spaces and tabs that starts
    at [start]: one column for every space and [tabSize] columns for every
    tab, whatever the column of the tab; it is 0 from the end of the string
    on. *)
Theorem countLeadingSpaces_counts_run v start T :
  countLeadingSpaces v start T
  = count_occ N.eq_dec (leading_run (skipn start v)) SPACE
    + T * count_occ N.eq_dec (leading_run (skipn start v)) TAB
  /\ (length v <= start -> countLeadingSpaces v start T = 0).
Proof.
  split.
  - apply countBlanks_count_occ.
  - intros H. unfold countLeadingSpaces. now rewrite skipn_all2.
Qed.

Lemma setRangeText_selection_ok replacement start end_ mode input input' :
  setRangeText replacement start end_ mode input = Ok input' ->
  selection_ok input'.
Proof.
  unfold setRangeText. destruct (end_ <? start); [discriminate|].
  cbv zeta.
  destruct (match mode with
            | Select => _ | Start => _ | End_ => _ | Preserve => _
            end) as [sel_start sel_end].
  intros H. injection H as <-. unfold selection_ok. simpl. lia.
Qed.

Lemma selection_ok_dispatch input :
  selection_ok input -> selection_ok (dispatchInputEvent input).
Proof. intros H. exact H. Qed.

(** X5.  For every tab size that is a natural number, 0 included,
    [outdent] never raises, whatever the selection, and it leaves a valid
    selection valid. *)
Theorem outdent_never_raises input config :
  exists input',
    outdent input config = Ok input' /\
    (selection_ok input -> selection_ok input').
Proof.
  destruct (outdent_lines input config)
    as [input' [replacement [Hout [_ [Hsame [Hdiff _]]]]]].
  exists input'. split; [exact Hout|]. intros Hsel.
  destruct (list_eq_dec N.eq_dec replacement
              (slice (value input)
                 (getLineStart (value input) (selectionStart input))
                 (getLineEnd (value input) (selectionEnd input))))
    as [E|Hne].
  - now rewrite (Hsame E).
  - destruct (Hdiff Hne) as [_ [input1 [Hset ->]]].
    apply selection_ok_dispatch.
    now apply setRangeText_selection_ok in Hset.
Qed.

(** X6.  For a valid selection in a buffer below 2^31 code units and a tab
    size that is a natural number, 0 included, [indent] never raises and
    never returns silently: it records exactly one range
    rewrite, of the line range in block mode and of the selection in caret
    mode, and one input event, also when the rewrite changes nothing.  The
    selection it leaves is valid. *)
Theorem indent_always_rewrites_once input config :
  selection_ok input ->
  (Z.of_nat (length (value input)) < 2 ^ 31)%Z ->
  exists input' replacement,
    indent input config = Ok input' /\
    effects input'
    = effects input
      ++ [if indentBlockMode input
          then RangeRewrite replacement
                 (getLineStart (value input) (selectionStart input))
                 (getLineEnd (value input) (selectionEnd input)) Preserve
          else RangeRewrite replacement
                 (selectionStart input) (selectionEnd input) End_;
          InputEvent] /\
    selection_ok input'.
Proof.
  intros Hsel Hlen.
  destruct (indentBlockMode input) eqn:Hmode.
  - destruct (indentBlock_lines input config Hsel Hlen Hmode)
      as [input1 [replacement [Hind [_ [Hset [_ [_ [Heff _]]]]]]]].
    exists (dispatchInputEvent input1), replacement.
    split; [exact Hind|]. split.
    + cbn [dispatchInputEvent effects]. rewrite Heff, <- app_assoc. reflexivity.
    + apply selection_ok_dispatch.
      now apply setRangeText_selection_ok in Hset.
  - pose proof (indentCaret_result input config Hsel) as Hres.
    cbv zeta in Hres.
    rewrite indent_branches, Hmode, Hres.
    eexists _, _. split; [reflexivity|]. split; [reflexivity|].
    unfold selection_ok. cbn [value selectionStart selectionEnd].
    destruct Hsel as [Hse Hel].
    split; [lia|]. rewrite !length_app, length_firstn. lia.
Qed.

Lemma indent_always_rewrites_once_witness :
  exists input' replacement,
    indent abc_caret_end spaces4 = Ok input' /\
    effects input' = [RangeRewrite replacement 3 3 End_; InputEvent].
Proof.
  destruct (indent_always_rewrites_once abc_caret_end spaces4)
    as [input' [replacement [Hind [Heff _]]]].
  - split; vm_compute; lia.
  - reflexivity.
  - exists input', replacement. split; [exact Hind|exact Heff].
Defined.

(* ================================================================== *)
(** * The text that the two replacers put in front of a line *)
(* ================================================================== *)

Lemma indentReplacer_exact config line_end pre l post :
  (l = [] -> post = []) ->
  (Z.of_nat (length (pre ++ l ++ post)) < 2 ^ 31)%Z ->
  indentReplacer config line_end (leading_run l) (length pre) (pre ++ l ++ post)
  = Ok (if match l with
           | [] => false
           | c :: _ => N.eqb c LF || N.eqb c CR
           end || (length pre =? line_end)
        then leading_run l
        else if insertSpaces config
             then repeat SPACE
                    ((countBlanks l (tabSize config) / tabSize config + 1)
                     * tabSize config)
             else repeat TAB
                    (countBlanks l (tabSize config) / tabSize config + 1)).
Proof.
  intros Hl Hlen. unfold indentReplacer.
  rewrite !char_is_app_head by assumption.
  rewrite !length_app in Hlen.
  set (T := tabSize config).
  assert (Hcond : (match l with [] => false | x :: _ => N.eqb x LF end
                   || match l with [] => false | x :: _ => N.eqb x CR end
                   || (length pre =? line_end))
                  = (match l with
                     | [] => false
                     | c :: _ => N.eqb c LF || N.eqb c CR
                     end || (length pre =? line_end))).
  { destruct l; reflexivity. }
  rewrite Hcond. clear Hcond.
  destruct (_ || (length pre =? line_end)); [reflexivity|].
  rewrite countLeadingSpaces_0, countBlanks_leading_run.
  set (w := countBlanks l T).
  destruct (Nat.eq_dec T 0) as [E0|Hpos].
  - rewrite E0. change (Z.of_nat 0) with 0%Z. rewrite trunc_div_0_r.
    destruct (insertSpaces config); reflexivity.
  - assert (Hw : w <= length l * T).
    { unfold w. pose proof (countBlanks_bound l T).
      replace (Nat.max 1 T) with T in * by lia. assumption. }
    rewrite (indent_tab_count w T (length l)) by lia.
    destruct (insertSpaces config).
    + rewrite <- Nat2Z.inj_mul. apply js_repeat_of_nat.
    + apply js_repeat_of_nat.
Qed.

Lemma outdentReplacer_exact config l offset str :
  (Z.of_nat (length l) < 2 ^ 31)%Z ->
  outdentReplacer config (leading_run l) offset str
  = Ok (if insertSpaces config
        then repeat SPACE
               ((countBlanks l (tabSize config) / tabSize config - 1)
                * tabSize config)
        else repeat TAB
               (countBlanks l (tabSize config) / tabSize config - 1)).
Proof.
  intros Hlen. unfold outdentReplacer.
  rewrite countLeadingSpaces_0, countBlanks_leading_run.
  set (T := tabSize config). set (w := countBlanks l T).
  destruct (Nat.eq_dec T 0) as [E0|Hpos].
  - rewrite E0. change (Z.of_nat 0) with 0%Z. rewrite trunc_div_0_r.
    rewrite Nat.mul_0_r. destruct (insertSpaces config); reflexivity.
  - set (tc := trunc_div (Z.of_nat w - Z.of_nat T) (Z.of_nat T)).
    assert (Hmax : Z.max 0 tc = Z.of_nat (w / T - 1)).
    { apply (outdent_tab_count w T (length l)); try lia.
      unfold w. pose proof (countBlanks_bound l T).
      replace (Nat.max 1 T) with T in * by lia. assumption. }
    destruct (Z.leb_spec tc 0) as [Hle|Hgt].
    + assert (E : w / T - 1 = 0) by lia. rewrite E.
      destruct (insertSpaces config); reflexivity.
    + assert (Htc : tc = Z.of_nat (w / T - 1)) by lia.
      rewrite Htc. destruct (insertSpaces config).
      * rewrite <- Nat2Z.inj_mul. apply js_repeat_of_nat.
      * apply js_repeat_of_nat.
Qed.

Lemma length_slice_exact v a b :
  a <= b -> b <= length v -> length (slice v a b) = b - a.
Proof.
  intros H1 H2. unfold slice. rewrite length_firstn, length_skipn. lia.
Qed.

(** Block [indent], with the text put in front of every line. *)
Lemma indentBlock_lines_exact input config :
  let v := value input in
  let ls := getLineStart v (selectionStart input) in
  let le := getLineEnd v (selectionEnd input) in
  let T := tabSize config in
  selection_ok input ->
  (Z.of_nat (length v) < 2 ^ 31)%Z ->
  indentBlockMode input = true ->
  exists input1 replacement,
    indent input config = Ok (dispatchInputEvent input1) /\
    setRangeText replacement ls le Preserve input = Ok input1 /\
    ls <= le /\ le <= length v /\
    value input1 = firstn ls v ++ replacement ++ skipn le v /\
    Forall2 (fun l l' =>
               l' = (if match l with
                        | [] => ls =? 0
                        | c :: _ => N.eqb c LF || N.eqb c CR
                        end
                     then leading_run l
                     else if insertSpaces config
                          then repeat SPACE ((countBlanks l T / T + 1) * T)
                          else repeat TAB (countBlanks l T / T + 1))
                    ++ after_leading l)
            (js_lines (slice v ls le)) (js_lines replacement).
Proof.
  intros v ls le T Hsel Hlen Hmode.
  destruct (indentBlock_lines input config Hsel Hlen Hmode)
    as [input1 [replacement [Hind [Hrep [Hset [Hle [Hval _]]]]]]].
  fold v in Hrep, Hset, Hle, Hval. fold ls in Hrep, Hset, Hle, Hval.
  fold le in Hrep, Hset, Hle, Hval.
  assert (Hlen_le : le <= length v).
  { apply getLineEnd_le_length. apply Hsel. }
  exists input1, replacement.
  split; [exact Hind|]. split; [exact Hset|]. split; [exact Hle|].
  split; [exact Hlen_le|]. split; [exact Hval|].
  destruct (replaceAll_leading_spec (indentReplacer config le) (slice v ls le)
              (fun l r =>
                 r = if match l with
                        | [] => ls =? 0
                        | c :: _ => N.eqb c LF || N.eqb c CR
                        end
                     then leading_run l
                     else if insertSpaces config
                          then repeat SPACE ((countBlanks l T / T + 1) * T)
                          else repeat TAB (countBlanks l T / T + 1)))
    as [replacement' [Hrep' HF]].
  { intros pre l post Hstr Hl.
    pose proof (length_slice_le_length v ls le) as Hs1.
    pose proof (length_slice_exact v ls le Hle Hlen_le) as Hs2.
    rewrite Hstr in *.
    rewrite indentReplacer_exact by (assumption || lia).
    fold T.
    assert (Hguard : (match l with
                      | [] => false
                      | c :: _ => N.eqb c LF || N.eqb c CR
                      end || (length pre =? le))
                     = match l with
                       | [] => ls =? 0
                       | c :: _ => N.eqb c LF || N.eqb c CR
                       end).
    { rewrite !length_app in Hs2. destruct l as [|c l].
      - rewrite (Hl eq_refl) in Hs2. simpl in Hs2 |- *.
        destruct (Nat.eqb_spec (length pre) le), (Nat.eqb_spec ls 0);
          try reflexivity; lia.
      - simpl in Hs2.
        destruct (Nat.eqb_spec (length pre) le); [lia|].
        apply orb_false_r. }
    rewrite Hguard.
    eexists. split; [reflexivity|]. split; [|reflexivity].
    destruct (match l with [] => ls =? 0 | c :: _ => _ end).
    - apply take_while_forallb.
    - destruct (insertSpaces config);
        apply forallb_blank_repeat; reflexivity. }
  rewrite Hrep in Hrep'. injection Hrep' as <-.
  eapply Forall2_impl; [|exact HF].
  intros l l' [r [-> [_ ->]]]. reflexivity.
Qed.

(** [outdent], with the text put in front of every line. *)
Lemma outdent_lines_exact input config :
  let v := value input in
  let ls := getLineStart v (selectionStart input) in
  let le := getLineEnd v (selectionEnd input) in
  let T := tabSize config in
  (Z.of_nat (length v) < 2 ^ 31)%Z ->
  exists input' replacement,
    outdent input config = Ok input' /\
    value input' = firstn ls v ++ replacement ++ skipn (Nat.max ls le) v /\
    Forall2 (fun l l' =>
               l' = (if insertSpaces config
                     then repeat SPACE ((countBlanks l T / T - 1) * T)
                     else repeat TAB (countBlanks l T / T - 1))
                    ++ after_leading l)
            (js_lines (slice v ls le)) (js_lines replacement).
Proof.
  intros v ls le T Hlen.
  destruct (outdent_lines input config)
    as [input' [replacement [Hout [Hrep [_ [_ [Hval _]]]]]]].
  fold v in Hrep, Hval. fold ls in Hrep, Hval. fold le in Hrep, Hval.
  exists input', replacement.
  split; [exact Hout|]. split; [exact Hval|].
  destruct (replaceAll_leading_spec (outdentReplacer config) (slice v ls le)
              (fun l r =>
                 r = if insertSpaces config
                     then repeat SPACE ((countBlanks l T / T - 1) * T)
                     else repeat TAB (countBlanks l T / T - 1)))
    as [replacement' [Hrep' HF]].
  { intros pre l post Hstr _.
    pose proof (length_slice_le_length v ls le) as Hs.
    rewrite Hstr, !length_app in Hs.
    rewrite outdentReplacer_exact by lia. fold T.
    eexists. split; [reflexivity|]. split; [|reflexivity].
    destruct (insertSpaces config); apply forallb_blank_repeat; reflexivity. }
  rewrite Hrep in Hrep'. injection Hrep' as <-.
  eapply Forall2_impl; [|exact HF].
  intros l l' [r [-> [_ ->]]]. reflexivity.
Qed.

(** X7.  Block [indent] rebuilds the leading run of every line with content
    from scratch: for a run of width [w] it writes [(w / tabSize + 1) *
    tabSize] spaces when insertSpaces is set and [w / tabSize + 1] tabs
    otherwise, so that mixed spaces and tabs come out as one kind of
    blank. *)
Theorem indent_block_normalizes_leading input config :
  selection_ok input ->
  (Z.of_nat (length (value input)) < 2 ^ 31)%Z ->
  indentBlockMode input = true ->
  let v := value input in
  let line_start := getLineStart v (selectionStart input) in
  let line_end := getLineEnd v (selectionEnd input) in
  let T := tabSize config in
  exists input' replacement,
    indent input config = Ok input' /\
    value input' = firstn line_start v ++ replacement ++ skipn line_end v /\
    Forall2 (fun l l' =>
               empty_line l = false ->
               l' = (if insertSpaces config
                     then repeat SPACE ((countLeadingSpaces l 0 T / T + 1) * T)
                     else repeat TAB (countLeadingSpaces l 0 T / T + 1))
                    ++ after_leading l)
            (js_lines (slice v line_start line_end)) (js_lines replacement).
Proof.
  intros Hsel Hlen Hmode v line_start line_end T.
  destruct (indentBlock_lines_exact input config Hsel Hlen Hmode)
    as [input1 [replacement [Hind [_ [_ [_ [Hval HF]]]]]]].
  exists (dispatchInputEvent input1), replacement.
  split; [exact Hind|]. split; [exact Hval|].
  eapply Forall2_impl; [|exact HF].
  intros l l' -> He. rewrite !countLeadingSpaces_0.
  destruct l as [|c l]; [discriminate He|].
  simpl in He. unfold is_line_terminator in He.
  apply orb_false_iff in He. destruct He as [He _].
  apply orb_false_iff in He. destruct He as [He _].
  now rewrite He.
Qed.

Lemma indent_block_normalizes_leading_witness :
  exists input' replacement,
    indent mixed_leading tabs4 = Ok input' /\
    value input'
    = firstn (getLineStart (value mixed_leading) 0) (value mixed_leading)
      ++ replacement
      ++ skipn (getLineEnd (value mixed_leading) 7) (value mixed_leading) /\
    Forall2 (fun l l' =>
               empty_line l = false ->
               l' = (if false
                     then repeat SPACE ((countLeadingSpaces l 0 4 / 4 + 1) * 4)
                     else repeat TAB (countLeadingSpaces l 0 4 / 4 + 1))
                    ++ after_leading l)
            (js_lines (slice (value mixed_leading)
                         (getLineStart (value mixed_leading) 0)
                         (getLineEnd (value mixed_leading) 7)))
            (js_lines replacement).
Proof.
  apply (indent_block_normalizes_leading mixed_leading tabs4).
  - split; vm_compute; lia.
  - reflexivity.
  - reflexivity.
Defined.

(** X8.  [outdent] rebuilds the leading run of every line of the range: for
    a run of width [w] it writes [(w / tabSize - 1) * tabSize] spaces when
    insertSpaces is set and [w / tabSize - 1] tabs otherwise (nothing below
    two tab stops), whatever mix of spaces and tabs the run was. *)
Theorem outdent_normalizes_leading input config :
  (Z.of_nat (length (value input)) < 2 ^ 31)%Z ->
  let v := value input in
  let line_start := getLineStart v (selectionStart input) in
  let line_end := getLineEnd v (selectionEnd input) in
  let T := tabSize config in
  exists input' replacement,
    outdent input config = Ok input' /\
    value input'
    = firstn line_start v ++ replacement
      ++ skipn (Nat.max line_start line_end) v /\
    Forall2 (fun l l' =>
               l' = (if insertSpaces config
                     then repeat SPACE ((countLeadingSpaces l 0 T / T - 1) * T)
                     else repeat TAB (countLeadingSpaces l 0 T / T - 1))
                    ++ after_leading l)
            (js_lines (slice v line_start line_end)) (js_lines replacement).
Proof.
  intros Hlen v line_start line_end T.
  exact (outdent_lines_exact input config Hlen).
Qed.

Lemma outdent_normalizes_leading_witness :
  exists input' replacement,
    outdent nine_spaces_foo tabs4 = Ok input' /\
    value input'
    = firstn (getLineStart (value nine_spaces_foo) 10) (value nine_spaces_foo)
      ++ replacement
      ++ skipn (Nat.max (getLineStart (value nine_spaces_foo) 10)
                        (getLineEnd (value nine_spaces_foo) 10))
               (value nine_spaces_foo) /\
    Forall2 (fun l l' =>
               l' = (if false
                     then repeat SPACE ((countLeadingSpaces l 0 4 / 4 - 1) * 4)
                     else repeat TAB (countLeadingSpaces l 0 4 / 4 - 1))
                    ++ after_leading l)
            (js_lines (slice (value nine_spaces_foo)
                         (getLineStart (value nine_spaces_foo) 10)
                         (getLineEnd (value nine_spaces_foo) 10)))
            (js_lines replacement).
Proof.
  apply (outdent_normalizes_leading nine_spaces_foo tabs4).
  reflexivity.
Defined.

(** X9.  Block [indent] leaves a line that starts with a newline or a
    carriage return as it is, and so the empty tail of a range that starts
    at offset 0. *)
Theorem indent_block_skips_empty_lines input config :
  selection_ok input ->
  (Z.of_nat (length (value input)) < 2 ^ 31)%Z ->
  indentBlockMode input = true ->
  let v := value input in
  let line_start := getLineStart v (selectionStart input) in
  let line_end := getLineEnd v (selectionEnd input) in
  exists input' replacement,
    indent input config = Ok input' /\
    value input' = firstn line_start v ++ replacement ++ skipn line_end v /\
    Forall2 (fun l l' =>
               match l with
               | [] => line_start = 0
               | c :: _ => c = LF \/ c = CR
               end -> l' = l)
            (js_lines (slice v line_start line_end)) (js_lines replacement).
Proof.
  intros Hsel Hlen Hmode v line_start line_end.
  destruct (indentBlock_lines_exact input config Hsel Hlen Hmode)
    as [input1 [replacement [Hind [_ [_ [_ [Hval HF]]]]]]].
  exists (dispatchInputEvent input1), replacement.
  split; [exact Hind|]. split; [exact Hval|].
  eapply Forall2_impl; [|exact HF].
  intros l l' -> Hl.
  assert (E : match l with
              | [] => getLineStart (value input) (selectionStart input) =? 0
              | c :: _ => N.eqb c LF || N.eqb c CR
              end = true).
  { destruct l as [|c l].
    - now apply Nat.eqb_eq.
    - destruct Hl as [->| ->]; reflexivity. }
  rewrite E. apply take_drop_while.
Qed.

Lemma indent_block_skips_empty_lines_witness :
  exists input' replacement,
    indent trailing_empty_line_at_top spaces4 = Ok input' /\
    value input'
    = firstn (getLineStart (value trailing_empty_line_at_top) 0)
        (value trailing_empty_line_at_top)
      ++ replacement
      ++ skipn (getLineEnd (value trailing_empty_line_at_top) 3)
           (value trailing_empty_line_at_top) /\
    Forall2 (fun l l' =>
               match l with
               | [] => getLineStart (value trailing_empty_line_at_top) 0 = 0
               | c :: _ => c = LF \/ c = CR
               end -> l' = l)
            (js_lines (slice (value trailing_empty_line_at_top)
                         (getLineStart (value trailing_empty_line_at_top) 0)
                         (getLineEnd (value trailing_empty_line_at_top) 3)))
            (js_lines replacement).
Proof.
  apply (indent_block_skips_empty_lines trailing_empty_line_at_top spaces4).
  - split; vm_compute; lia.
  - reflexivity.
  - reflexivity.
Defined.

(** X10.  The test [offset === line_end] compares an offset in the slice
    with an offset in the buffer.  When the range starts behind offset 0 it
    never holds, and the empty tail of the range (behind a final terminator)
    gets one unit of indentation, as does a line that holds only U+2028 or
    U+2029. *)
Theorem indent_block_indents_empty_tail input config :
  selection_ok input ->
  (Z.of_nat (length (value input)) < 2 ^ 31)%Z ->
  indentBlockMode input = true ->
  let v := value input in
  let line_start := getLineStart v (selectionStart input) in
  let line_end := getLineEnd v (selectionEnd input) in
  exists input' replacement,
    indent input config = Ok input' /\
    value input' = firstn line_start v ++ replacement ++ skipn line_end v /\
    Forall2 (fun l l' =>
               match l with
               | [] => 0 < line_start
               | c :: _ => c = LS \/ c = PS
               end ->
               l' = (if insertSpaces config
                     then repeat SPACE (tabSize config) else [TAB]) ++ l)
            (js_lines (slice v line_start line_end)) (js_lines replacement).
Proof.
  intros Hsel Hlen Hmode v line_start line_end.
  destruct (indentBlock_lines_exact input config Hsel Hlen Hmode)
    as [input1 [replacement [Hind [_ [_ [_ [Hval HF]]]]]]].
  exists (dispatchInputEvent input1), replacement.
  split; [exact Hind|]. split; [exact Hval|].
  eapply Forall2_impl; [|exact HF].
  intros l l' -> Hl.
  assert (E : match l with
              | [] => getLineStart (value input) (selectionStart input) =? 0
              | c :: _ => N.eqb c LF || N.eqb c CR
              end = false
              /\ countBlanks l (tabSize config) = 0
              /\ after_leading l = l).
  { destruct l as [|c l].
    - split; [apply Nat.eqb_neq; fold v; fold line_start; lia|].
      split; reflexivity.
    - destruct Hl as [->| ->]; repeat split; reflexivity. }
  destruct E as [-> [-> ->]].
  rewrite Nat.Div0.div_0_l. simpl Nat.add. rewrite Nat.mul_1_l.
  reflexivity.
Qed.

Lemma indent_block_indents_empty_tail_witness :
  exists input' replacement,
    indent trailing_empty_line spaces4 = Ok input' /\
    value input'
    = firstn (getLineStart (value trailing_empty_line) 2)
        (value trailing_empty_line)
      ++ replacement
      ++ skipn (getLineEnd (value trailing_empty_line) 5)
           (value trailing_empty_line) /\
    Forall2 (fun l l' =>
               match l with
               | [] => 0 < getLineStart (value trailing_empty_line) 2
               | c :: _ => c = LS \/ c = PS
               end ->
               l' = (if true then repeat SPACE 4 else [TAB]) ++ l)
            (js_lines (slice (value trailing_empty_line)
                         (getLineStart (value trailing_empty_line) 2)
                         (getLineEnd (value trailing_empty_line) 5)))
            (js_lines replacement).
Proof.
  apply (indent_block_indents_empty_tail trailing_empty_line spaces4).
  - split; vm_compute; lia.
  - reflexivity.
  - reflexivity.
Defined.

(** The two ranges of the scenarios: the same lines, once behind a first
    line and once at the top of the buffer. *)
Example indent_empty_tail_behind_first_line :
  indent trailing_empty_line spaces4
  = Ok {| value := js "x" ++ [LF] ++ js "    a" ++ [LF] ++ js "    " ++ [LF];
          selectionStart := 2;
          selectionEnd := 13;
          effects := [RangeRewrite (js "    a" ++ [LF] ++ js "    ") 2 4 Preserve;
                      InputEvent] |}.
Proof. reflexivity. Qed.

Example indent_empty_tail_at_top :
  indent trailing_empty_line_at_top spaces4
  = Ok {| value := js "    a" ++ [LF; LF];
          selectionStart := 0;
          selectionEnd := 7;
          effects := [RangeRewrite (js "    a" ++ [LF]) 0 2 Preserve;
                      InputEvent] |}.
Proof. reflexivity. Qed.

(* ================================================================== *)
(** * The selection behind a rewrite of the line range *)
(* ================================================================== *)

Lemma getLineStart_at_line_start v i :
  getLineStart v i = 0 \/ nth_error v (getLineStart v i - 1) = Some LF.
Proof.
  induction i as [|i IH]; simpl; [now left|].
  destruct (char_is v i LF) eqn:E; [|exact IH].
  right. simpl. rewrite Nat.sub_0_r. now apply char_is_true.
Qed.

Lemma getLineEnd_at_line_end v i :
  i <= getLineEnd v i -> getLineEnd v i < length v ->
  nth_error v (getLineEnd v i) = Some LF \/
  nth_error v (getLineEnd v i) = Some CR.
Proof.
  unfold getLineEnd.
  destruct (Nat.ltb_spec 0 i) as [Hpos|Hz]; simpl.
  - destruct (char_is v (i - 1) LF); [lia|].
    intros _ Hlt.
    destruct (scanLineEnd_first_terminator (skipn i v) i) as [H1 [H2 _]].
    rewrite length_skipn in H1, H2. specialize (H2 ltac:(lia)).
    rewrite !nth_error_skipn in H2.
    replace (i + (scanLineEnd (skipn i v) i - i))
      with (scanLineEnd (skipn i v) i) in H2 by lia.
    exact H2.
  - intros _ Hlt.
    destruct (scanLineEnd_first_terminator (skipn i v) i) as [H1 [H2 _]].
    rewrite length_skipn in H1, H2. specialize (H2 ltac:(lia)).
    rewrite !nth_error_skipn in H2.
    replace (i + (scanLineEnd (skipn i v) i - i))
      with (scanLineEnd (skipn i v) i) in H2 by lia.
    exact H2.
Qed.

(** A rewrite of a range [ls, le) that holds the start of the selection and
    all of the selection but for one last code unit: the selection starts at
    [ls] afterwards and ends behind the new text, or one behind it. *)
Lemma setRangeText_Preserve_selection replacement ls le input input1 :
  selection_ok input ->
  ls <= selectionStart input -> selectionStart input <= le ->
  selectionEnd input <= le + 1 ->
  ls <= le -> le <= length (value input) ->
  setRangeText replacement ls le Preserve input = Ok input1 ->
  selectionStart input1 = ls /\
  selectionEnd input1
  = (if le <? selectionEnd input then ls + length replacement + 1
     else if ls <? selectionEnd input then ls + length replacement
          else ls).
Proof.
  intros [Hse Hel] H1 H2 H3 H4 H5. unfold setRangeText.
  destruct (Nat.ltb_spec le ls); [lia|].
  cbv zeta. cbv beta iota. intros Hok. injection Hok as <-.
  cbn [selectionStart selectionEnd].
  rewrite !length_app, length_firstn, length_skipn.
  rewrite (Nat.min_l ls) by lia. rewrite (Nat.min_l le) by lia.
  destruct (Nat.ltb_spec le (selectionStart input)); [lia|].
  destruct (Nat.ltb_spec le (selectionEnd input));
    destruct (Nat.ltb_spec ls (selectionStart input));
    destruct (Nat.ltb_spec ls (selectionEnd input)); lia.
Qed.

Lemma selection_start_in_line_range input :
  selection_ok input ->
  getLineStart (value input) (selectionStart input)
  <= getLineEnd (value input) (selectionEnd input) ->
  selectionStart input <= getLineEnd (value input) (selectionEnd input).
Proof.
  intros [Hse Hel] Hle.
  destruct (Nat.le_gt_cases (selectionStart input)
              (getLineEnd (value input) (selectionEnd input)))
    as [H|H]; [exact H|exfalso].
  assert (Hlt : getLineEnd (value input) (selectionEnd input)
                < selectionEnd input) by lia.
  destruct (getLineEnd_before_index _ _ Hlt) as [Hpos [Hnl Heq]].
  assert (E : selectionStart input = selectionEnd input) by lia.
  rewrite <- E in Hnl, Hpos.
  pose proof (getLineStart_after_newline _ _ Hpos Hnl) as Hls.
  lia.
Qed.

(** X11.  When [outdent] changes the text of a valid selection's range, the
    selection starts at the line start afterwards.  It ends behind the
    rebuilt text when its end was inside the range (so a caret inside a line
    becomes a selection of the whole rebuilt range), one code unit further
    when the range left out a final newline, and at the line start when the
    selection was a caret there. *)
Theorem outdent_selects_rebuilt_range input config :
  selection_ok input ->
  let v := value input in
  let end_ := selectionEnd input in
  let line_start := getLineStart v (selectionStart input) in
  let line_end := getLineEnd v end_ in
  exists replacement,
    replaceAll_leading (outdentReplacer config) (slice v line_start line_end)
    = Ok replacement /\
    (replacement <> slice v line_start line_end ->
     exists input',
       outdent input config = Ok input' /\
       selectionStart input' = line_start /\
       selectionEnd input'
       = (if line_end <? end_ then line_start + length replacement + 1
          else if line_start <? end_ then line_start + length replacement
               else line_start)).
Proof.
  intros Hsel v end_ line_start line_end.
  subst v end_ line_start line_end.
  destruct (outdent_lines input config)
    as [input' [replacement [Hout [Hrep [_ [Hdiff _]]]]]].
  exists replacement. split; [exact Hrep|].
  intros Hne. destruct (Hdiff Hne) as [Hle [input1 [Hset ->]]].
  exists (dispatchInputEvent input1). split; [exact Hout|].
  cbn [dispatchInputEvent selectionStart selectionEnd].
  apply (setRangeText_Preserve_selection replacement _ _ input input1);
    try assumption.
  - apply getLineStart_le.
  - now apply selection_start_in_line_range.
  - pose proof (getLineEnd_ge (value input) (selectionEnd input)). lia.
  - apply getLineEnd_le_length. apply Hsel.
Qed.

Lemma outdent_selects_rebuilt_range_witness :
  exists replacement,
    replaceAll_leading (outdentReplacer spaces4)
      (slice (value nine_spaces_foo)
         (getLineStart (value nine_spaces_foo) 10)
         (getLineEnd (value nine_spaces_foo) 10))
    = Ok replacement /\
    (replacement <> slice (value nine_spaces_foo)
                      (getLineStart (value nine_spaces_foo) 10)
                      (getLineEnd (value nine_spaces_foo) 10) ->
     exists input',
       outdent nine_spaces_foo spaces4 = Ok input' /\
       selectionStart input' = getLineStart (value nine_spaces_foo) 10 /\
       selectionEnd input'
       = (if getLineEnd (value nine_spaces_foo) 10 <? 10
          then getLineStart (value nine_spaces_foo) 10 + length replacement + 1
          else if getLineStart (value nine_spaces_foo) 10 <? 10
               then getLineStart (value nine_spaces_foo) 10 + length replacement
               else getLineStart (value nine_spaces_foo) 10)).
Proof.
  apply (outdent_selects_rebuilt_range nine_spaces_foo spaces4).
  split; vm_compute; lia.
Defined.

(** The caret inside ["foo"] behind nine spaces: [outdent] leaves four
    spaces and the whole line selected. *)
Example outdent_caret_inside_line :
  outdent nine_spaces_foo spaces4
  = Ok {| value := js "    foo";
          selectionStart := 0;
          selectionEnd := 7;
          effects := [RangeRewrite (js "    foo") 0 12 Preserve; InputEvent] |}.
Proof. reflexivity. Qed.

Lemma nth_error_rebuilt (P r sfx : list N) (k : nat) :
  nth_error (P ++ r ++ sfx) (length P + length r + k) = nth_error sfx k.
Proof.
  rewrite app_assoc, <- length_app.
  rewrite nth_error_app2 by lia.
  f_equal. lia.
Qed.

Lemma indent_block_first_line_nonempty config ls (l l' : list N) :
  0 < tabSize config ->
  l <> [] ->
  l' = (if match l with
           | [] => ls =? 0
           | c :: _ => N.eqb c LF || N.eqb c CR
           end
        then leading_run l
        else if insertSpaces config
             then repeat SPACE
                    ((countBlanks l (tabSize config) / tabSize config + 1)
                     * tabSize config)
             else repeat TAB
                    (countBlanks l (tabSize config) / tabSize config + 1))
       ++ after_leading l ->
  l' <> [].
Proof.
  intros HT Hne ->. destruct l as [|c l]; [contradiction|].
  destruct (N.eqb c LF || N.eqb c CR).
  - unfold leading_run, after_leading. rewrite take_drop_while. discriminate.
  - intros E. apply app_eq_nil in E. destruct E as [E _].
    apply (f_equal (@length N)) in E. simpl in E.
    destruct (insertSpaces config); rewrite repeat_length in E.
    + rewrite Nat.mul_add_distr_r in E. lia.
    + lia.
Qed.

Lemma lines_ok_first_nonempty (l : list N) rest :
  lines_ok (l :: rest) -> concat (l :: rest) <> [] -> l <> [].
Proof.
  intros Hok Hne. inversion Hok as [l1 Hl E | x t ls1 Hx Ht Hls E]; subst.
  - simpl in Hne. now rewrite app_nil_r in Hne.
  - destruct x; discriminate.
Qed.

(** X12.  After a block [indent] of a valid selection (tabSize > 0) the
    selection starts at the line start and ends behind the rebuilt text, or
    one code unit further when the range left out a final newline; it is
    again a selection that [indent] treats in block mode, so that a second
    Tab indents the block again. *)
Theorem indent_block_keeps_block_selection input config :
  selection_ok input ->
  0 < tabSize config ->
  (Z.of_nat (length (value input)) < 2 ^ 31)%Z ->
  indentBlockMode input = true ->
  let v := value input in
  let end_ := selectionEnd input in
  let line_start := getLineStart v (selectionStart input) in
  let line_end := getLineEnd v end_ in
  exists input' replacement,
    indent input config = Ok input' /\
    value input' = firstn line_start v ++ replacement ++ skipn line_end v /\
    selectionStart input' = line_start /\
    selectionEnd input'
    = (if line_end <? end_ then line_start + length replacement + 1
       else line_start + length replacement) /\
    indentBlockMode input' = true.
Proof.
  intros Hsel HT Hlen Hmode v end_ line_start line_end.
  subst v end_ line_start line_end.
  set (v := value input). set (ls := getLineStart v (selectionStart input)).
  set (le := getLineEnd v (selectionEnd input)).
  destruct (indentBlock_lines_exact input config Hsel Hlen Hmode)
    as [input1 [replacement [Hind [Hset [Hle [Hlen_le [Hval HF]]]]]]].
  fold v in Hset, Hle, Hlen_le, Hval, HF. fold ls in Hset, Hle, Hval, HF.
  fold le in Hset, Hle, Hlen_le, Hval, HF.
  pose proof (indentBlockMode_nonempty input Hsel Hmode) as Hne.
  pose proof (getLineStart_le v (selectionStart input)) as Hls. fold ls in Hls.
  pose proof (getLineEnd_ge v (selectionEnd input)) as Hge. fold le in Hge.
  destruct Hsel as [Hse Hel]. fold v in Hel.
  destruct (setRangeText_Preserve_selection replacement ls le input input1)
    as [Hs1 He1]; try assumption; try (split; assumption); try lia.
  assert (He1' : selectionEnd input1
                 = if le <? selectionEnd input then ls + length replacement + 1
                   else ls + length replacement).
  { rewrite He1. destruct (Nat.ltb_spec le (selectionEnd input)); [reflexivity|].
    destruct (Nat.ltb_spec ls (selectionEnd input)); [reflexivity|lia]. }
  exists (dispatchInputEvent input1), replacement.
  split; [exact Hind|]. split; [exact Hval|]. split; [exact Hs1|].
  split; [exact He1'|].
  assert (HlenP : length (firstn ls v) = ls).
  { rewrite length_firstn. lia. }
  apply indentBlockMode_spec.
  cbn [dispatchInputEvent value selectionStart selectionEnd].
  rewrite Hs1, He1', Hval.
  destruct (Nat.ltb_spec le (selectionEnd input)) as [Hlt|Hnlt].
  - (* the newline left out of the range is still selected *)
    right. exists (ls + length replacement). split; [lia|].
    destruct (getLineEnd_before_index v (selectionEnd input) Hlt)
      as [Hpos [Hnl Heq]].
    fold le in Heq.
    replace (ls + length replacement)
      with (length (firstn ls v) + length replacement + 0) by lia.
    rewrite nth_error_rebuilt, nth_error_skipn, Nat.add_0_r.
    rewrite Heq. exact Hnl.
  - left.
    assert (Hrne : 0 < length replacement).
    { assert (Hsl : slice v ls le <> []).
      { intros E. apply (f_equal (@length N)) in E.
        rewrite length_slice_exact in E by assumption. simpl in E. lia. }
      pose proof (js_lines_ok (slice v ls le)) as Hok.
      rewrite <- (concat_js_lines (slice v ls le)) in Hsl.
      rewrite <- (concat_js_lines replacement).
      destruct HF as [|l0 l0' rest rest' H0 HF'].
      - simpl in Hsl. contradiction.
      - pose proof (lines_ok_first_nonempty l0 rest Hok Hsl) as Hl0.
        pose proof (indent_block_first_line_nonempty config ls l0 l0' HT Hl0 H0)
          as Hl0'.
        simpl. rewrite length_app.
        destruct l0'; [contradiction|simpl; lia]. }
    split; [lia|]. split.
    + destruct (getLineStart_at_line_start v (selectionStart input)) as [E|E];
        fold ls in E; [now left|].
      destruct (Nat.eq_dec ls 0) as [E0|Hpos]; [now left|right].
      rewrite nth_error_app1 by lia.
      rewrite nth_error_firstn.
      destruct (Nat.ltb_spec (ls - 1) ls); [exact E|lia].
    + destruct (Nat.eq_dec le (length v)) as [Eend|Hin].
      * left. rewrite !length_app, HlenP, length_skipn. lia.
      * right.
        replace (ls + length replacement)
          with (length (firstn ls v) + length replacement + 0) by lia.
        rewrite nth_error_rebuilt, nth_error_skipn, Nat.add_0_r.
        apply getLineEnd_at_line_end; fold v; fold le; lia.
Qed.

Lemma indent_block_keeps_block_selection_witness :
  exists input' replacement,
    indent a_b_selected spaces4 = Ok input' /\
    value input'
    = firstn (getLineStart (value a_b_selected) 0) (value a_b_selected)
      ++ replacement
      ++ skipn (getLineEnd (value a_b_selected) 3) (value a_b_selected) /\
    selectionStart input' = getLineStart (value a_b_selected) 0 /\
    selectionEnd input'
    = (if getLineEnd (value a_b_selected) 3 <? 3
       then getLineStart (value a_b_selected) 0 + length replacement + 1
       else getLineStart (value a_b_selected) 0 + length replacement) /\
    indentBlockMode input' = true.
Proof.
  apply (indent_block_keeps_block_selection a_b_selected spaces4).
  - split; vm_compute; lia.
  - vm_compute; lia.
  - reflexivity.
  - reflexivity.
Defined.

(* ================================================================== *)
(** * The keydown hooks *)
(* ================================================================== *)

Lemma jsstring_eqb_refl a : jsstring_eqb a a = true.
Proof. now apply jsstring_eqb_eq. Qed.

Lemma hooked_listeners input ci co :
  Forall (fun r => fst r < nextListener input) (keydown input) ->
  keydown (fst (hookOutdent (fst (hookIndent input ci)) co))
  = keydown input
    ++ [(nextListener input, indentOnKeydown ci);
        (S (nextListener input), outdentOnKeydown co)].
Proof.
  intros Hfresh. unfold hookOutdent, hookIndent, addEventListener.
  cbn [fst keydown nextListener control].
  assert (E1 : existsb (fun r => fst r =? nextListener input) (keydown input)
               = false).
  { apply not_true_is_false. intros H. apply existsb_exists in H.
    destruct H as [r [Hin Hr]]. apply Nat.eqb_eq in Hr.
    rewrite Forall_forall in Hfresh. specialize (Hfresh r Hin). lia. }
  rewrite E1. cbn [fst keydown nextListener control].
  assert (E2 : existsb (fun r => fst r =? S (nextListener input))
                 (keydown input ++ [(nextListener input, indentOnKeydown ci)])
               = false).
  { apply not_true_is_false. intros H. apply existsb_exists in H.
    destruct H as [r [Hin Hr]]. apply Nat.eqb_eq in Hr.
    apply in_app_or in Hin. destruct Hin as [Hin|[<-|[]]].
    - rewrite Forall_forall in Hfresh. specialize (Hfresh r Hin). lia.
    - simpl in Hr. lia. }
  rewrite E2. cbn [keydown]. rewrite <- app_assoc. reflexivity.
Qed.

Lemma filter_fresh (f : nat) (ls : list (nat * listener)) :
  Forall (fun r => fst r < f) ls ->
  forall g, f <= g -> filter (fun r => negb (fst r =? g)) ls = ls.
Proof.
  intros H g Hg. induction H as [|r ls Hr Hls IH]; simpl; [reflexivity|].
  destruct (Nat.eqb_spec (fst r) g); [lia|]. simpl. now rewrite IH.
Qed.

(** X13.  With [hookIndent] and [hookOutdent] on a textarea that has no
    other keydown listener, a Tab press without Shift runs [indent] and one
    with Shift runs [outdent], each with the default action prevented; any
    other key leaves the event and the control as they are. *)
Theorem tab_presses_reach_one_hook input ci co e :
  keydown input = [] ->
  let hooked := fst (hookOutdent (fst (hookIndent input ci)) co) in
  (key e <> js "Tab" -> dispatchKeydown e hooked = (e, hooked)) /\
  (key e = js "Tab" -> shiftKey e = false ->
   fst (dispatchKeydown e hooked) = preventDefault e /\
   control (snd (dispatchKeydown e hooked))
   = match indent (control input) ci with
     | Ok target => target
     | Throw _ => control input
     end) /\
  (key e = js "Tab" -> shiftKey e = true ->
   fst (dispatchKeydown e hooked) = preventDefault e /\
   outdent (control input) co
   = Ok (control (snd (dispatchKeydown e hooked)))).
Proof.
  intros Hnone hooked.
  assert (Hls : keydown hooked
                = [(nextListener input, indentOnKeydown ci);
                   (S (nextListener input), outdentOnKeydown co)]).
  { unfold hooked. rewrite hooked_listeners; rewrite Hnone; [reflexivity|].
    constructor. }
  assert (Hc : control hooked = control input).
  { unfold hooked, hookOutdent, hookIndent, addEventListener.
    cbn [fst keydown nextListener control]. rewrite Hnone.
    cbn [existsb fst keydown nextListener control app].
    destruct (Nat.eqb_spec (nextListener input) (S (nextListener input)));
      [lia|reflexivity]. }
  unfold dispatchKeydown. rewrite Hls, Hc.
  cbn [runListeners]. unfold indentOnKeydown, outdentOnKeydown.
  split; [|split].
  - intros Hkey.
    assert (E : jsstring_eqb (key e) (js "Tab") = false).
    { apply not_true_is_false. intros H. now apply jsstring_eqb_eq in H. }
    rewrite E. cbn [negb orb]. rewrite E. cbn [negb orb].
    destruct hooked as [c k n]. cbn [control keydown nextListener] in *.
    now subst.
  - intros Hkey Hshift. rewrite Hkey, jsstring_eqb_refl, Hshift.
    cbn [negb orb].
    destruct (indent (control input) ci) as [target|ex];
      cbn [preventDefault key shiftKey];
      rewrite Hkey, jsstring_eqb_refl, Hshift; cbn [negb orb fst snd control];
      split; reflexivity.
  - intros Hkey Hshift. rewrite Hkey, jsstring_eqb_refl, Hshift.
    cbn [negb orb]. rewrite Hkey, jsstring_eqb_refl, Hshift. cbn [negb orb].
    destruct (outdent_lines (control input) co) as [target [r [Hout _]]].
    rewrite Hout. cbn [fst snd control].
    split; reflexivity.
Qed.

Lemma tab_presses_reach_one_hook_witness :
  indent (control bare_input) spaces4
  = Ok (control (snd (dispatchKeydown tab_key
                        (fst (hookOutdent (fst (hookIndent bare_input spaces4))
                                spaces4))))).
Proof.
  destruct (tab_presses_reach_one_hook bare_input spaces4 spaces4 tab_key
              eq_refl) as [_ [H _]].
  destruct (H eq_refl eq_refl) as [_ Hc].
  rewrite Hc. reflexivity.
Defined.

(** X14.  The functions that [hookIndent] and [hookOutdent] return remove
    their own listener and no other: either one leaves the other hook in
    place, and both together, in any order, restore the listeners the
    textarea had. *)
Theorem hook_disposers_remove_own_listener input ci co :
  Forall (fun r => fst r < nextListener input) (keydown input) ->
  let hooked1 := hookIndent input ci in
  let hooked2 := hookOutdent (fst hooked1) co in
  keydown (snd hooked1 (fst hooked2))
  = keydown input ++ [(S (nextListener input), outdentOnKeydown co)] /\
  keydown (snd hooked2 (fst hooked2))
  = keydown input ++ [(nextListener input, indentOnKeydown ci)] /\
  keydown (snd hooked2 (snd hooked1 (fst hooked2))) = keydown input /\
  keydown (snd hooked1 (snd hooked2 (fst hooked2))) = keydown input.
Proof.
  intros Hfresh hooked1 hooked2.
  pose proof (hooked_listeners input ci co Hfresh) as Hls.
  fold hooked1 in Hls. fold hooked2 in Hls.
  pose proof (filter_fresh _ _ Hfresh) as Hf.
  assert (Hd1 : forall i, keydown (snd hooked1 i)
                = filter (fun r => negb (fst r =? nextListener input))
                    (keydown i)) by reflexivity.
  assert (Hd2 : forall i, keydown (snd hooked2 i)
                = filter (fun r => negb (fst r =? S (nextListener input)))
                    (keydown i)).
  { intros i. unfold hooked2, hookOutdent. cbn [snd].
    unfold removeEventListener. cbn [keydown].
    replace (nextListener (fst hooked1)) with (S (nextListener input));
      [reflexivity|].
    unfold hooked1, hookIndent, addEventListener. cbn [fst].
    destruct (existsb _ _); reflexivity. }
  rewrite !Hd2, !Hd1, !Hd2, Hls.
  rewrite !filter_app, !Hf by lia.
  cbn [filter fst].
  rewrite Nat.eqb_refl.
  destruct (Nat.eqb_spec (S (nextListener input)) (nextListener input)); [lia|].
  destruct (Nat.eqb_spec (nextListener input) (S (nextListener input))); [lia|].
  cbn [negb filter fst app]. rewrite !Nat.eqb_refl. cbn [negb filter].
  rewrite !app_nil_r.
  repeat split; reflexivity.
Qed.

Lemma hook_disposers_remove_own_listener_witness :
  keydown (snd (hookOutdent (fst (hookIndent bare_input spaces4)) tabs4)
             (snd (hookIndent bare_input spaces4)
                (fst (hookOutdent (fst (hookIndent bare_input spaces4)) tabs4))))
  = keydown bare_input.
Proof.
  destruct (hook_disposers_remove_own_listener bare_input spaces4 tabs4)
    as [_ [_ [H _]]].
  - constructor.
  - exact H.
Defined.

(* ================================================================== *)
(** * Block indent followed by outdent *)
(* ================================================================== *)

Lemma concat_lines_nil (L : list (list N)) :
  lines_ok L -> concat L = [] -> L = [[]].
Proof.
  intros Hok E. destruct Hok as [l Hl | x t ls Hx Ht Hls].
  - simpl in E. rewrite app_nil_r in E. now subst.
  - simpl in E. destruct x; discriminate E.
Qed.

Lemma app_last_cases (A : Type) (a b r0 : list A) (t : A) :
  a ++ b = r0 ++ [t] ->
  (b = [] /\ a = r0 ++ [t]) \/ (exists b0, b = b0 ++ [t]).
Proof.
  intros E. destruct b as [|y b] using rev_ind.
  - left. rewrite app_nil_r in E. auto.
  - right. clear IHb. rewrite app_assoc in E.
    apply app_inj_tail in E. destruct E as [_ ->]. now exists b.
Qed.

(** A rewrite of leading runs that empties no line with content keeps the
    terminator at the end of the text. *)
Lemma rewrite_keeps_final_terminator (R : list N -> list N -> Prop) :
  (forall l l', R l l' ->
     exists X, l' = X ++ after_leading l /\ forallb is_blank X = true) ->
  (forall l l', R l l' -> l' = [] -> l = []) ->
  forall L, lines_ok L ->
  forall L', Forall2 R L L' ->
  forall r0 t, concat L' = r0 ++ [t] -> is_line_terminator t = true ->
  exists s0, concat L = s0 ++ [t].
Proof.
  intros Hshape Hempty L Hok.
  induction Hok as [l Hl | x t0 ls Hx Ht0 Hls IH]; intros L' HF r0 t E Ht.
  - apply Forall2_single in HF. destruct HF as [l' [-> HR]].
    destruct (Hshape _ _ HR) as [X [El HX]].
    simpl in E. rewrite app_nil_r in E.
    assert (Hno : no_terminator l').
    { rewrite El. apply no_terminator_app. split.
      - now apply blanks_no_terminator.
      - now apply after_leading_no_terminator. }
    rewrite E in Hno. apply no_terminator_app in Hno.
    destruct Hno as [_ Hno]. unfold no_terminator in Hno. simpl in Hno.
    rewrite Ht in Hno. discriminate Hno.
  - inversion HF as [|? l' ? ls' HR HF' E1 E2]; subst.
    simpl in E.
    destruct (app_last_cases _ _ _ _ _ E) as [[Enil El']|[b0 Eb]].
    + (* the lines behind are empty: so they were *)
      assert (Hok' : lines_ok ls').
      { apply (lines_ok_rewrite ls); [assumption|].
        eapply Forall2_impl; [|exact HF'].
        intros a b Hab. now apply Hshape. }
      apply concat_lines_nil in Enil; [|assumption]. subst ls'.
      inversion HF' as [|l1 ? ls1 ? HR1 HF1]; subst.
      inversion HF1; subst.
      rewrite (Hempty _ _ HR1 eq_refl).
      destruct (Hshape _ _ HR) as [X [El HX]].
      unfold after_leading in El.
      rewrite drop_while_snoc in El by now apply terminator_not_blank.
      rewrite !app_assoc in El.
      apply app_inj_tail in El. destruct El as [_ ->].
      exists x. simpl. now rewrite app_nil_r.
    + destruct (IH ls' HF' b0 t Eb Ht) as [s0 Es].
      exists ((x ++ [t0]) ++ s0). simpl. rewrite Es, <- !app_assoc.
      reflexivity.
Qed.

Lemma Forall2_compose (A : Type) (R1 R2 : A -> A -> Prop) (L L1 L2 : list A) :
  Forall2 R1 L L1 -> Forall2 R2 L1 L2 ->
  Forall2 (fun a c => exists b, R1 a b /\ R2 b c) L L2.
Proof.
  intros H1. revert L2. induction H1 as [|a b L L1 Hab H1 IH]; intros L2 H2.
  - inversion H2. constructor.
  - inversion H2 as [|? c ? L2' Hbc H2']; subst.
    constructor; [now exists b|now apply IH].
Qed.

Lemma getLineEnd_no_newline_before v i :
  i <= getLineEnd v i -> 0 < getLineEnd v i ->
  nth_error v (getLineEnd v i - 1) <> Some LF.
Proof.
  unfold getLineEnd.
  destruct ((0 <? i) && char_is v (i - 1) LF) eqn:E.
  - apply andb_true_iff in E. destruct E as [E _].
    apply Nat.ltb_lt in E. lia.
  - intros Hge Hpos.
    destruct (scanLineEnd_first_terminator (skipn i v) i) as [H1 [_ H3]].
    destruct (Nat.eq_dec (scanLineEnd (skipn i v) i) i) as [Eq|Hne].
    + rewrite Eq in *. intros Hnl. apply char_is_true in Hnl.
      rewrite Hnl, andb_true_r in E. apply Nat.ltb_ge in E. lia.
    + specialize (H3 (scanLineEnd (skipn i v) i - 1 - i) ltac:(lia)).
      rewrite nth_error_skipn in H3.
      replace (i + (scanLineEnd (skipn i v) i - 1 - i))
        with (scanLineEnd (skipn i v) i - 1) in H3 by lia.
      apply H3.
Qed.

Lemma slice_last_char v a b s0 t :
  a <= b -> b <= length v -> slice v a b = s0 ++ [t] ->
  0 < b /\ nth_error v (b - 1) = Some t.
Proof.
  intros Hab Hb E.
  pose proof (length_slice_exact v a b Hab Hb) as Hlen.
  rewrite E, length_app in Hlen. simpl in Hlen.
  split; [lia|].
  assert (H : nth_error (slice v a b) (length s0) = Some t).
  { rewrite E. apply nth_error_length_app. }
  unfold slice in H. rewrite nth_error_firstn in H.
  destruct (Nat.ltb_spec (length s0) (b - a)); [|discriminate H].
  rewrite nth_error_skipn in H.
  replace (b - 1) with (a + length s0) by lia. exact H.
Qed.

Lemma scanLineEnd_at_terminator rest i :
  match rest with
  | [] => True
  | c :: _ => c = LF \/ c = CR
  end -> scanLineEnd rest i = i.
Proof.
  destruct rest as [|c rest]; [reflexivity|].
  intros [->| ->]; reflexivity.
Qed.

Lemma skipn_line_end_head v i :
  i <= getLineEnd v i ->
  match skipn (getLineEnd v i) v with
  | [] => True
  | c :: _ => c = LF \/ c = CR
  end.
Proof.
  intros Hge.
  destruct (Nat.lt_ge_cases (getLineEnd v i) (length v)) as [Hlt|Hout].
  - destruct (getLineEnd_at_line_end v i Hge Hlt) as [H|H];
      rewrite <- (Nat.add_0_r (getLineEnd v i)) in H;
      rewrite <- nth_error_skipn in H;
      destruct (skipn (getLineEnd v i) v) as [|c rest];
      try discriminate H; injection H as ->; auto.
  - now rewrite skipn_all2.
Qed.

(** Block [indent] with a tab size: the text, the selection and the lines it
    leaves. *)
Lemma indentBlock_result input config :
  let v := value input in
  let ls := getLineStart v (selectionStart input) in
  let le := getLineEnd v (selectionEnd input) in
  let T := tabSize config in
  selection_ok input ->
  0 < T ->
  (Z.of_nat (length v) < 2 ^ 31)%Z ->
  indentBlockMode input = true ->
  exists input1 replacement,
    indent input config = Ok input1 /\
    ls <= le /\ le <= length v /\
    value input1 = firstn ls v ++ replacement ++ skipn le v /\
    selectionStart input1 = ls /\
    selectionEnd input1
    = (if le <? selectionEnd input then ls + length replacement + 1
       else ls + length replacement) /\
    (ls < le -> 0 < length replacement) /\
    Forall2 (fun l l' =>
               l' = (if match l with
                        | [] => ls =? 0
                        | c :: _ => N.eqb c LF || N.eqb c CR
                        end
                     then leading_run l
                     else if insertSpaces config
                          then repeat SPACE ((countBlanks l T / T + 1) * T)
                          else repeat TAB (countBlanks l T / T + 1))
                    ++ after_leading l)
            (js_lines (slice v ls le)) (js_lines replacement).
Proof.
  intros v ls le T Hsel HT Hlen Hmode.
  destruct (indentBlock_lines_exact input config Hsel Hlen Hmode)
    as [input1 [replacement [Hind [Hset [Hle [Hlen_le [Hval HF]]]]]]].
  fold v in Hset, Hle, Hlen_le, Hval, HF. fold ls in Hset, Hle, Hval, HF.
  fold le in Hset, Hle, Hlen_le, Hval, HF. fold T in HF.
  pose proof (indentBlockMode_nonempty input Hsel Hmode) as Hne.
  pose proof (getLineStart_le v (selectionStart input)) as Hls. fold ls in Hls.
  pose proof (getLineEnd_ge v (selectionEnd input)) as Hge. fold le in Hge.
  destruct (setRangeText_Preserve_selection replacement ls le input input1)
    as [Hs1 He1]; try assumption; try lia.
  exists (dispatchInputEvent input1), replacement.
  split; [exact Hind|]. split; [exact Hle|]. split; [exact Hlen_le|].
  split; [exact Hval|]. split; [exact Hs1|]. split.
  { cbn [dispatchInputEvent selectionEnd]. rewrite He1.
    destruct (Nat.ltb_spec le (selectionEnd input)); [reflexivity|].
    destruct (Nat.ltb_spec ls (selectionEnd input)); [reflexivity|lia]. }
  split; [|exact HF].
  intros Hlt.
  assert (Hsl : slice v ls le <> []).
  { intros E. apply (f_equal (@length N)) in E.
    rewrite length_slice_exact in E by assumption. simpl in E. lia. }
  pose proof (js_lines_ok (slice v ls le)) as Hok.
  rewrite <- (concat_js_lines (slice v ls le)) in Hsl.
  rewrite <- (concat_js_lines replacement).
  destruct HF as [|l0 l0' rest rest' H0 HF'].
  - simpl in Hsl. contradiction.
  - pose proof (lines_ok_first_nonempty l0 rest Hok Hsl) as Hl0.
    pose proof (indent_block_first_line_nonempty config ls l0 l0' HT Hl0 H0)
      as Hl0'.
    simpl. rewrite length_app.
    destruct l0'; [contradiction|simpl; lia].
Qed.

Lemma indentBlock_outdent_lines input config :
  selection_ok input ->
  0 < tabSize config ->
  (Z.of_nat (length (value input)) < 2 ^ 31)%Z ->
  indentBlockMode input = true ->
  let v := value input in
  let line_start := getLineStart v (selectionStart input) in
  let line_end := getLineEnd v (selectionEnd input) in
  let T := tabSize config in
  exists input1,
    indent input config = Ok input1 /\
    line_start <= line_end /\
    ((Z.of_nat (length (value input1)) < 2 ^ 31)%Z ->
     exists input2 replacement,
       outdent input1 config = Ok input2 /\
       value input2 = firstn line_start v ++ replacement ++ skipn line_end v /\
       Forall2 (fun l l' =>
                  l' = (if insertSpaces config
                        then repeat SPACE (countLeadingSpaces l 0 T / T * T)
                        else repeat TAB (countLeadingSpaces l 0 T / T))
                       ++ after_leading l)
               (js_lines (slice v line_start line_end))
               (js_lines replacement)).
Proof.
  intros Hsel HT Hlen Hmode v ls le T.
  destruct (indentBlock_result input config Hsel HT Hlen Hmode)
    as [input1 [r [Hind [Hle [Hlen_le [Hval [Hs1 [He1 [Hrne HF]]]]]]]]].
  fold v in Hle, Hlen_le, Hval, Hs1, He1, Hrne, HF.
  fold ls in Hle, Hval, Hs1, He1, Hrne, HF.
  fold le in Hle, Hlen_le, Hval, He1, Hrne, HF. fold T in HF.
  exists input1. split; [exact Hind|]. split; [exact Hle|]. intros Hlen1.
  set (P := firstn ls v) in *. set (Sfx := skipn le v) in *.
  assert (HlenP : length P = ls).
  { unfold P. rewrite length_firstn. lia. }
  pose proof (getLineEnd_ge v (selectionEnd input)) as Hge. fold le in Hge.
  (* the line range of the new selection is the rebuilt text *)
  assert (Hls1 : getLineStart (value input1) (selectionStart input1) = ls).
  { rewrite Hval, Hs1.
    rewrite (getLineStart_prefix P (r ++ Sfx) ls) by lia.
    unfold P.
    rewrite <- (getLineStart_prefix (firstn ls v) (skipn ls v) ls)
      by (rewrite length_firstn; lia).
    rewrite firstn_skipn. apply getLineStart_idem. }
  assert (Hhead : match Sfx with [] => True | c :: _ => c = LF \/ c = CR end
                  \/ le < selectionEnd input).
  { destruct (Nat.le_gt_cases (selectionEnd input) le) as [H|H]; [left|now right].
    now apply skipn_line_end_head. }
  assert (Hle1 : getLineEnd (value input1) (selectionEnd input1)
                 = ls + length r).
  { rewrite Hval, He1.
    destruct (Nat.ltb_spec le (selectionEnd input)) as [Hlt|Hnlt].
    - destruct (getLineEnd_before_index v (selectionEnd input) Hlt)
        as [Hpos [Hnl Heq]].
      fold le in Heq.
      rewrite getLineEnd_after_newline; [lia|lia|].
      replace (ls + length r + 1 - 1) with (length P + length r + 0) by lia.
      rewrite nth_error_rebuilt. unfold Sfx.
      rewrite nth_error_skipn, Nat.add_0_r, Heq. exact Hnl.
    - pose proof (indentBlockMode_nonempty input Hsel Hmode) as Hne.
      pose proof (getLineStart_le v (selectionStart input)) as Hls0.
      fold ls in Hls0.
      assert (Hrne0 : 0 < length r) by (apply Hrne; lia).
      assert (Hno : nth_error (P ++ r ++ Sfx) (ls + length r - 1) <> Some LF).
      { intros Hnl.
        assert (Hrne' : r <> []) by (intros ->; simpl in Hrne0; lia).
        destruct (exists_last Hrne') as [r0 [t Er]].
        assert (Et : t = LF).
        { rewrite Er in Hnl. rewrite length_app in Hnl. simpl in Hnl.
          replace (P ++ (r0 ++ [t]) ++ Sfx) with ((P ++ r0) ++ t :: Sfx) in Hnl
            by (rewrite <- !app_assoc; reflexivity).
          replace (ls + (length r0 + 1) - 1) with (length (P ++ r0)) in Hnl
            by (rewrite length_app; lia).
          rewrite nth_error_length_app in Hnl. congruence. }
        subst t.
        destruct (rewrite_keeps_final_terminator
                    (fun l l' =>
                       l' = (if match l with
                                | [] => ls =? 0
                                | c :: _ => N.eqb c LF || N.eqb c CR
                                end
                             then leading_run l
                             else if insertSpaces config
                                  then repeat SPACE ((countBlanks l T / T + 1) * T)
                                  else repeat TAB (countBlanks l T / T + 1))
                            ++ after_leading l))
          with (L := js_lines (slice v ls le)) (L' := js_lines r)
               (r0 := r0) (t := LF) as [s0 Es].
        - intros l l' ->. eexists. split; [reflexivity|].
          destruct (match l with [] => ls =? 0 | c :: _ => _ end).
          + apply take_while_forallb.
          + destruct (insertSpaces config);
              apply forallb_blank_repeat; reflexivity.
        - intros l l' El E.
          destruct l as [|c l]; [reflexivity|exfalso].
          apply (indent_block_first_line_nonempty config ls (c :: l) l' HT);
            [discriminate|exact El|exact E].
        - apply js_lines_ok.
        - exact HF.
        - rewrite concat_js_lines. exact Er.
        - reflexivity.
        - rewrite concat_js_lines in Es.
          destruct (slice_last_char v ls le s0 LF Hle Hlen_le Es) as [Hpos Hnl'].
          apply (getLineEnd_no_newline_before v (selectionEnd input));
            fold le; try assumption. }
      rewrite getLineEnd_scan.
      + replace (ls + length r) with (length (P ++ r)) at 1
          by (rewrite length_app; lia).
        rewrite app_assoc, skipn_length_app.
        apply scanLineEnd_at_terminator.
        destruct Hhead as [H|H]; [exact H|lia].
      + destruct (char_is (P ++ r ++ Sfx) (ls + length r - 1) LF) eqn:E;
          [|reflexivity].
        apply char_is_true in E. contradiction. }
  assert (Hslice : slice (value input1) ls (ls + length r) = r).
  { rewrite Hval, <- HlenP. apply slice_app_mid. }
  destruct (outdent_lines_exact input1 config Hlen1)
    as [input2 [r2 [Hout [Hval2 HF2]]]].
  rewrite Hls1, Hle1 in Hval2, HF2. rewrite Hslice in HF2.
  exists input2, r2. split; [exact Hout|]. split.
  { rewrite Hval2, Hval. rewrite Nat.max_r by lia.
    rewrite <- HlenP at 1. rewrite firstn_length_app.
    do 2 f_equal.
    replace (ls + length r) with (length (P ++ r))
      by (rewrite length_app; lia).
    rewrite app_assoc. apply skipn_length_app. }
  pose proof (Forall2_compose _ _ _ _ _ _ HF HF2) as HFF.
  eapply Forall2_impl; [|exact HFF].
  intros l l2 [l1 [E1 E2]]. fold T in E2.
  rewrite countLeadingSpaces_0.
  set (X1 := if match l with
                | [] => ls =? 0
                | c :: _ => N.eqb c LF || N.eqb c CR
                end
             then leading_run l
             else if insertSpaces config
                  then repeat SPACE ((countBlanks l T / T + 1) * T)
                  else repeat TAB (countBlanks l T / T + 1)) in E1.
  assert (HX1 : forallb is_blank X1 = true
                /\ countBlanks X1 T / T - 1 = countBlanks l T / T).
  { unfold X1. destruct l as [|c l].
    - destruct (ls =? 0).
      + split; [reflexivity|]. simpl. now rewrite Nat.Div0.div_0_l.
      + destruct (insertSpaces config).
        * split; [apply forallb_blank_repeat; reflexivity|].
          rewrite countBlanks_repeat_space, Nat.div_mul by lia. lia.
        * split; [apply forallb_blank_repeat; reflexivity|].
          rewrite countBlanks_repeat_tab, Nat.div_mul by lia. lia.
    - destruct (N.eqb c LF || N.eqb c CR) eqn:Ec.
      + split; [apply take_while_forallb|].
        rewrite countBlanks_leading_run.
        assert (E0 : countBlanks (c :: l) T = 0).
        { apply orb_true_iff in Ec.
          destruct Ec as [Ec|Ec]; apply N.eqb_eq in Ec; subst c; reflexivity. }
        rewrite E0. now rewrite Nat.Div0.div_0_l.
      + destruct (insertSpaces config).
        * split; [apply forallb_blank_repeat; reflexivity|].
          rewrite countBlanks_repeat_space, Nat.div_mul by lia. lia.
        * split; [apply forallb_blank_repeat; reflexivity|].
          rewrite countBlanks_repeat_tab, Nat.div_mul by lia. lia. }
  destruct HX1 as [Hb Hq].
  rewrite E2, E1.
  rewrite after_leading_rewrite by assumption.
  rewrite (countBlanks_app_blanks X1 (after_leading l) T Hb (drop_while_head _ _)).
  rewrite Hq. reflexivity.
Qed.

(** X15.  Tab and then Shift+Tab on a block: block [indent] followed by
    [outdent] on the control it leaves rewrites the same line range, and
    every line of the range ends up with its leading run replaced by the
    canonical run of its original width rounded down to a tab stop
    ([w / tabSize * tabSize] spaces, or [w / tabSize] tabs); what follows
    the leading run, and the buffer outside the range, are as before. *)
Theorem block_indent_then_outdent input config :
  selection_ok input ->
  0 < tabSize config ->
  (Z.of_nat (length (value input)) < 2 ^ 31)%Z ->
  indentBlockMode input = true ->
  let v := value input in
  let line_start := getLineStart v (selectionStart input) in
  let line_end := getLineEnd v (selectionEnd input) in
  let T := tabSize config in
  exists input1,
    indent input config = Ok input1 /\
    ((Z.of_nat (length (value input1)) < 2 ^ 31)%Z ->
     exists input2 replacement,
       outdent input1 config = Ok input2 /\
       value input2 = firstn line_start v ++ replacement ++ skipn line_end v /\
       Forall2 (fun l l' =>
                  l' = (if insertSpaces config
                        then repeat SPACE (countLeadingSpaces l 0 T / T * T)
                        else repeat TAB (countLeadingSpaces l 0 T / T))
                       ++ after_leading l)
               (js_lines (slice v line_start line_end))
               (js_lines replacement)).
Proof.
  intros Hsel HT Hlen Hmode v line_start line_end T.
  destruct (indentBlock_outdent_lines input config Hsel HT Hlen Hmode)
    as [input1 [Hind [_ H]]].
  exists input1. split; [exact Hind|exact H].
Qed.

Lemma block_indent_then_outdent_witness :
  exists input1,
    indent mixed_leading tabs4 = Ok input1 /\
    exists input2, outdent input1 tabs4 = Ok input2 /\
    value input2 = [TAB] ++ js "x" ++ [LF; LF] ++ js "y".
Proof.
  destruct (block_indent_then_outdent mixed_leading tabs4)
    as [input1 [Hind H]];
    [split; vm_compute; lia|vm_compute; lia|reflexivity|reflexivity|].
  exists input1. split; [exact Hind|].
  assert (Hlen1 : (Z.of_nat (length (value input1)) < 2 ^ 31)%Z).
  { vm_compute in Hind. injection Hind as <-. reflexivity. }
  destruct (H Hlen1) as [input2 [r [Hout _]]].
  exists input2. split; [exact Hout|].
  vm_compute in Hind. injection Hind as <-.
  vm_compute in Hout. injection Hout as <-. reflexivity.
Defined.

Lemma Forall2_eq_r (A : Type) (f : A -> A) (L L' : list A) :
  Forall (fun l => f l = l) L -> Forall2 (fun l l' => l' = f l) L L' ->
  L' = L.
Proof.
  intros HA HF. induction HF as [|l l' L L' E HF IH]; [reflexivity|].
  inversion HA as [|? ? Hl HL]; subst. rewrite Hl. f_equal. now apply IH.
Qed.

(** X16.  When every line of the range already starts with the canonical run
    of a width that is a multiple of tabSize (only spaces when spaces are
    inserted, only tabs otherwise), block [indent] followed by [outdent]
    restores the buffer. *)
Theorem block_indent_outdent_restores input config :
  selection_ok input ->
  0 < tabSize config ->
  (Z.of_nat (length (value input)) < 2 ^ 31)%Z ->
  indentBlockMode input = true ->
  let v := value input in
  let line_start := getLineStart v (selectionStart input) in
  let line_end := getLineEnd v (selectionEnd input) in
  let T := tabSize config in
  Forall (fun l =>
            leading_run l
            = if insertSpaces config
              then repeat SPACE (countLeadingSpaces l 0 T / T * T)
              else repeat TAB (countLeadingSpaces l 0 T / T))
         (js_lines (slice v line_start line_end)) ->
  exists input1,
    indent input config = Ok input1 /\
    ((Z.of_nat (length (value input1)) < 2 ^ 31)%Z ->
     exists input2,
       outdent input1 config = Ok input2 /\ value input2 = v).
Proof.
  intros Hsel HT Hlen Hmode v ls le T Hcanon.
  destruct (indentBlock_outdent_lines input config Hsel HT Hlen Hmode)
    as [input1 [Hind [Hle H]]].
  fold v in Hle, H. fold ls in Hle, H. fold le in Hle, H. fold T in H.
  exists input1. split; [exact Hind|]. intros Hlen1.
  destruct (H Hlen1) as [input2 [r [Hout [Hval HF]]]].
  exists input2. split; [exact Hout|].
  assert (Er : r = slice v ls le).
  { rewrite <- (concat_js_lines r), <- (concat_js_lines (slice v ls le)).
    f_equal.
    apply (Forall2_eq_r _
             (fun l => (if insertSpaces config
                        then repeat SPACE (countLeadingSpaces l 0 T / T * T)
                        else repeat TAB (countLeadingSpaces l 0 T / T))
                       ++ after_leading l)); [|exact HF].
    eapply Forall_impl; [|exact Hcanon].
    intros l El. cbv beta in El |- *. rewrite <- El.
    apply take_drop_while. }
  rewrite Hval, Er.
  rewrite (value_split v ls le) at 4.
  rewrite skipn_after_slice, Nat.max_r by exact Hle. reflexivity.
Qed.

Lemma block_indent_outdent_restores_witness :
  exists input1,
    indent indented_a_b spaces4 = Ok input1 /\
    exists input2, outdent input1 spaces4 = Ok input2 /\
    value input2 = value indented_a_b.
Proof.
  destruct (block_indent_outdent_restores indented_a_b spaces4)
    as [input1 [Hind H]];
    [split; vm_compute; lia|vm_compute; lia|reflexivity|reflexivity
    |vm_compute; repeat constructor|].
  exists input1. split; [exact Hind|].
  apply H. vm_compute in Hind. injection Hind as <-. reflexivity.
Defined.

(* ================================================================== *)
(** * The caret after a caret-mode indent *)
(* ================================================================== *)

(** X17.  In caret mode with spaces, [indent] moves the caret forward by 1
    to tabSize code units onto the next tab stop: the caret stays on its
    line, collapsed, at an offset from the line start that is a multiple of
    tabSize. *)
Theorem indent_caret_lands_on_tab_stop input config :
  selection_ok input ->
  0 < tabSize config ->
  indentBlockMode input = false ->
  insertSpaces config = true ->
  let v := value input in
  let start := selectionStart input in
  let line_start := getLineStart v start in
  exists input',
    indent input config = Ok input' /\
    selectionEnd input' = selectionStart input' /\
    start < selectionStart input' <= start + tabSize config /\
    getLineStart (value input') (selectionStart input') = line_start /\
    (selectionStart input' - line_start) mod tabSize config = 0.
Proof.
  intros Hsel HT Hmode Hsp v start line_start.
  pose proof (indentCaret_result input config Hsel) as Hres.
  cbv zeta in Hres. rewrite Hsp in Hres.
  fold v in Hres. fold start in Hres. fold line_start in Hres.
  rewrite indent_branches, Hmode, Hres.
  eexists. split; [reflexivity|].
  cbn [value selectionStart selectionEnd].
  rewrite repeat_length.
  set (T := tabSize config) in *.
  pose proof (getLineStart_le v start) as Hls. fold line_start in Hls.
  pose proof (Nat.mod_upper_bound (start - line_start) T ltac:(lia)) as Hm.
  set (p := T - (start - line_start) mod T) in *.
  destruct Hsel as [Hse Hel]. fold start in Hse. fold v in Hel.
  split; [reflexivity|]. split; [lia|]. split.
  - assert (El : length (firstn start v) = start)
      by (rewrite length_firstn; lia).
    rewrite app_assoc.
    rewrite (getLineStart_prefix (firstn start v ++ repeat SPACE p)
               (skipn (selectionEnd input) v) (start + p))
      by (rewrite length_app, repeat_length; lia).
    replace (start + p)
      with (length (firstn start v) + length (repeat SPACE p))
      by (rewrite repeat_length; lia).
    rewrite getLineStart_over_blanks
      by (apply forallb_blank_repeat; reflexivity).
    rewrite El.
    rewrite <- (getLineStart_prefix (firstn start v) (skipn start v) start)
      by lia.
    now rewrite firstn_skipn.
  - replace (start + p - line_start) with
      ((start - line_start) / T * T + (start - line_start) mod T + p - 0).
    2:{ pose proof (Nat.div_mod_eq (start - line_start) T). lia. }
    replace ((start - line_start) / T * T + (start - line_start) mod T + p - 0)
      with (((start - line_start) / T + 1) * T) by (unfold p; lia).
    apply Nat.Div0.mod_mul.
Qed.

Lemma indent_caret_lands_on_tab_stop_witness :
  exists input',
    indent ab_caret_middle spaces4 = Ok input' /\
    selectionEnd input' = selectionStart input' /\
    1 < selectionStart input' <= 1 + 4 /\
    getLineStart (value input') (selectionStart input') = 0 /\
    (selectionStart input' - 0) mod 4 = 0.
Proof.
  apply (indent_caret_lands_on_tab_stop ab_caret_middle spaces4).
  - split; vm_compute; lia.
  - vm_compute. lia.
  - reflexivity.
  - reflexivity.
Defined.
